(** * Park scheduler: the MILP built by [optimize_park_scheduling]

    Shallow embedding of [src/park_scheduler.py].  The function builds a
    PuLP problem (objective, then the constraint blocks 1 to 8), hands it to
    the CBC solver and prints the days on which a park variable is set.

    Modelling choices.
    - A [datetime.date] is its proleptic ordinal, an integer between 1 and
      [MAXORDINAL]; adding a [timedelta] outside that range raises
      [OverflowError], and the difference of two dates is the difference of
      their ordinals.
    - A park and a company are the dictionaries of the source read as
      records with the same keys.
    - PuLP is an external library.  An [LpVariable] is identified by the
      dictionary and the keys under which [LpVariable.dicts] stores it; the
      dictionaries themselves are association lists and a lookup of an
      absent key raises [KeyError].  An expression keeps the shape in which
      the source writes it, and [problem += c, name] appends the named
      constraint to the problem, unless the problem already holds a
      constraint of that name, in which case PuLP raises [PulpError].  A
      constraint name keeps the rule and the values interpolated into its
      text; [name_text] gives the text the source builds, with [str] of a
      date as Python prints it, and [pulp_name] the name PuLP keeps, in
      which the characters [-+[] ->/] are rewritten to an underscore.
    - The solver is a parameter; the floats it returns are rationals, of
      which the program only tests whether they are zero. *)

From Stdlib Require Import List ZArith QArith Lia Lqa Ascii String Bool Sorted.
Import ListNotations.

Local Open Scope Z_scope.

(** ** Dates *)

Definition Day := Z.

Definition MAXORDINAL : Z := 3652059.

Definition valid_date (d : Day) : Prop := 0 < d <= MAXORDINAL.

(** ** Exceptions *)

Inductive Key :=
| KName (s : string)
| KDay (d : Day).

Inductive Error :=
| KeyError (k : Key)
| OverflowError
| PulpError (name : string).

Inductive Result (A : Type) :=
| Ok (a : A)
| Raise (e : Error).

Arguments Ok {A} a.
Arguments Raise {A} e.

Definition bind {A B} (r : Result A) (k : A -> Result B) : Result B :=
  match r with
  | Ok a => k a
  | Raise e => Raise e
  end.

Notation "x <- c1 ;; c2" := (bind c1 (fun x => c2))
  (at level 61, c1 at next level, right associativity).

Fixpoint mapM {A B} (f : A -> Result B) (l : list A) : Result (list B) :=
  match l with
  | [] => Ok []
  | a :: l' => b <- f a ;; bs <- mapM f l' ;; Ok (b :: bs)
  end.

(** A [for] loop whose body updates a state and may raise. *)
Fixpoint for_each {A S} (l : list A) (body : A -> S -> Result S) (s : S)
  : Result S :=
  match l with
  | [] => Ok s
  | a :: l' => s' <- body a s ;; for_each l' body s'
  end.

(** [d + timedelta(days=n)] *)
Definition date_add (d : Day) (n : Z) : Result Day :=
  let o := d + n in
  if (0 <? o) && (o <=? MAXORDINAL) then Ok o else Raise OverflowError.

(** [enumerate(l)], [l[:-1]] is [removelast l] and [l[i:]] is [skipn i l]. *)
Definition enumerate {A} (l : list A) : list (nat * A) :=
  combine (seq 0 (List.length l)) l.

(** Whether no string occurs twice *)
Fixpoint nodupb (l : list string) : bool :=
  match l with
  | [] => true
  | a :: l' => negb (existsb (String.eqb a) l') && nodupb l'
  end.

(** [a] stands at an earlier position of [l] than [b]. *)
Definition precedes {A} (l : list A) (a b : A) : Prop :=
  exists l1 l2 l3, l = l1 ++ a :: l2 ++ b :: l3.

(** ** Input records *)

Module Park.
Record t := mk {
  name : string;
  company : string;
  demanding : bool;
  cannot_visit_days : list Day;
  must_visit_day : option Day;
  days_to_avoid : list Day;
  preferred_days : list Day
}.
End Park.

Module Company.
Record t := mk {
  company : string;
  number_of_days : Z
}.
End Company.

(** ** Dictionaries *)

Class KeyType (K : Type) := {
  key_eqb : K -> K -> bool;
  key_eqb_eq : forall a b, key_eqb a b = true <-> a = b;
  as_key : K -> Key
}.

#[export] Instance string_KeyType : KeyType string :=
  {| key_eqb := String.eqb; key_eqb_eq := String.eqb_eq; as_key := KName |}.

#[export] Instance Day_KeyType : KeyType Day :=
  {| key_eqb := Z.eqb; key_eqb_eq := Z.eqb_eq; as_key := KDay |}.

Definition dict (K V : Type) := list (K * V).

(** [d[k]] *)
Fixpoint getitem {K V} `{KeyType K} (d : dict K V) (k : K) : Result V :=
  match d with
  | [] => Raise (KeyError (as_key k))
  | (k', v) :: d' => if key_eqb k' k then Ok v else getitem d' k
  end.

(** One level of [LpVariable.dicts]: an entry per index, holding what the
    remaining indices build.  The entry stored under a key depends on the
    key only, so an index that occurs twice leaves the same dictionary. *)
Definition dicts {K V} (index : list K) (mk : K -> V) : dict K V :=
  map (fun i => (i, mk i)) index.

(** ** PuLP variables, expressions, constraints *)

Inductive LpVariable :=
| park_schedule (p : string) (d : Day)
| slack_6 (p : string)
| slack_7 (p1 p2 : string) (d1 d2 : Day)
| slack_8 (p1 p2 : string) (d1 d2 : Day).

Inductive LpAffineExpression :=
| EVar (v : LpVariable)
| EConst (k : Z)
| lpSum (vs : list LpVariable)
| EAdd (a b : LpAffineExpression)
| EMul (k : Z) (e : LpAffineExpression).

Inductive Sense := LpConstraintLE | LpConstraintEQ.

Record LpConstraint := mkConstraint {
  lhs : LpAffineExpression;
  sense : Sense;
  rhs : LpAffineExpression
}.

Declare Scope lp_scope.
Delimit Scope lp_scope with lp.
Notation "a '<=' b" := (mkConstraint a LpConstraintLE b) : lp_scope.
Notation "a '==' b" := (mkConstraint a LpConstraintEQ b)
  (at level 70, no associativity) : lp_scope.

(** The text of a constraint name: its rule and the values printed in it. *)
Inductive ConstraintName :=
| Constraint_1 (d : Day)
| Constraint_2 (p : string)
| Constraint_3 (p : string) (d : Day)
| Constraint_4 (p : string) (d : Day)
| Constraint_5 (p : string) (d : Day)
| Constraint_7 (p1 p2 : string) (d d' : Day)
| Constraint_8 (p1 p2 : string) (d d' : Day).

Definition Named : Type := ConstraintName * LpConstraint.

(** *** The text of a name

    [str(d)] of a date is its ISO format; the year, month and day of an
    ordinal are computed as [datetime] does. *)

Definition DAYS_IN_MONTH : list Z :=
  [-1; 31; 28; 31; 30; 31; 30; 31; 31; 30; 31; 30; 31].

Definition DAYS_BEFORE_MONTH : list Z :=
  [-1; 0; 31; 59; 90; 120; 151; 181; 212; 243; 273; 304; 334].

Definition ord2ymd (n : Z) : Z * Z * Z :=
  let n := n - 1 in
  let n400 := n / 146097 in
  let n := n mod 146097 in
  let year := n400 * 400 + 1 in
  let n100 := n / 36524 in
  let n := n mod 36524 in
  let n4 := n / 1461 in
  let n := n mod 1461 in
  let n1 := n / 365 in
  let n := n mod 365 in
  let year := year + n100 * 100 + n4 * 4 + n1 in
  if (n1 =? 4) || (n100 =? 4) then (year - 1, 12, 31)
  else
    let leapyear := (n1 =? 3) && (negb (n4 =? 24) || (n100 =? 3)) in
    let month := Z.shiftr (n + 50) 5 in
    let preceding :=
      nth (Z.to_nat month) DAYS_BEFORE_MONTH 0
      + (if (month >? 2) && leapyear then 1 else 0) in
    if preceding >? n then
      let month := month - 1 in
      let preceding :=
        preceding
        - (nth (Z.to_nat month) DAYS_IN_MONTH 0
           + (if (month =? 2) && leapyear then 1 else 0)) in
      (year, month, n - preceding + 1)
    else (year, month, n - preceding + 1).

Definition digit (k : Z) : string :=
  String (Ascii.ascii_of_nat (48 + Z.to_nat (k mod 10))) EmptyString.

(** ["%04d-%02d-%02d"] *)
Definition str_date (d : Day) : string :=
  match ord2ymd d with
  | (y, m, dd) =>
      (digit (y / 1000) ++ digit (y / 100) ++ digit (y / 10) ++ digit y
       ++ "-" ++ digit (m / 10) ++ digit m
       ++ "-" ++ digit (dd / 10) ++ digit dd)%string
  end.

(** The name as the source writes it *)
Definition name_text (n : ConstraintName) : string :=
  match n with
  | Constraint_1 d =>
      "Constraint 1: At maximum one park can be assigned on the same day "
      ++ str_date d
  | Constraint_2 p =>
      "Constraint 2: Park " ++ p ++ " must be assigned to a day."
  | Constraint_3 p d =>
      "Constraint 3: Park " ++ p
      ++ " cannot be visited on the specific day " ++ str_date d
  | Constraint_4 p d =>
      "Constraint 4: Park " ++ p ++ " should be visited on day " ++ str_date d
  | Constraint_5 p d =>
      "Constraint 5: Park " ++ p ++ " should be avoided on day(s) "
      ++ str_date d
  | Constraint_7 p1 p2 d d' =>
      "Constraint 7: demanding parks cannot be assigned on consecutive days. Parks "
      ++ p1 ++ " and " ++ p2 ++ ". Days: " ++ str_date d ++ " and "
      ++ str_date d'
  | Constraint_8 p1 p2 d d' =>
      "Parks of the same company should be visited within a specific time interval. Parks "
      ++ p1 ++ " and " ++ p2 ++ ". Days: " ++ str_date d ++ " and "
      ++ str_date d'
  end%string.

(** PuLP's rewriting of the characters it does not accept in a name *)
Definition illegal_char (c : Ascii.ascii) : bool :=
  existsb (Ascii.eqb c) ["-"; "+"; "["; "]"; " "; ">"; "/"]%char.

Fixpoint translate (s : string) : string :=
  match s with
  | EmptyString => EmptyString
  | String c s' =>
      String (if illegal_char c then "_"%char else c) (translate s')
  end.

(** The name under which PuLP keeps a constraint *)
Definition pulp_name (n : ConstraintName) : string := translate (name_text n).

Record LpProblem := mkProblem {
  objective : option LpAffineExpression;
  constraints : list Named
}.

(** [pulp.LpProblem("Park Schedule Optimization", pulp.LpMinimize)] *)
Definition LpProblem_new : LpProblem := mkProblem None [].

(** [problem += e] for an expression [e] *)
Definition set_objective (problem : LpProblem) (e : LpAffineExpression)
  : LpProblem :=
  mkProblem (Some e) (constraints problem).

(** [problem += c, name] for the constraints [cs] in turn *)
Definition add_constraints (problem : LpProblem) (cs : list Named)
  : LpProblem :=
  mkProblem (objective problem) (constraints problem ++ cs).

(** The names of the constraints a problem holds *)
Definition held (problem : LpProblem) : list string :=
  map (fun nc => pulp_name (fst nc)) (constraints problem).

(** [problem += c, name]: PuLP refuses a name that the problem holds. *)
Definition add_constraint (problem : LpProblem) (n : ConstraintName)
  (c : LpConstraint) : Result LpProblem :=
  if existsb (String.eqb (pulp_name n)) (held problem)
  then Raise (PulpError (pulp_name n))
  else Ok (add_constraints problem [(n, c)]).

(** ** The model builder: lines 17 to 88 of the source *)

Section Builder.
Variable days : list Day.
Variable parks : list Park.t.
Variable companies : list Company.t.

Definition park_names : list string := map Park.name parks.

Definition variables : dict string (dict Day LpVariable) :=
  dicts park_names (fun p => dicts days (fun d => park_schedule p d)).

Definition slack_variables_6 : dict string LpVariable :=
  dicts park_names slack_6.

Definition dicts4 (mk : string -> string -> Day -> Day -> LpVariable)
  : dict string (dict string (dict Day (dict Day LpVariable))) :=
  dicts park_names (fun p1 => dicts park_names (fun p2 =>
    dicts days (fun d1 => dicts days (fun d2 => mk p1 p2 d1 d2)))).

Definition slack_variables_7 := dicts4 slack_7.
Definition slack_variables_8 := dicts4 slack_8.

(** [variables[p][d]] *)
Definition variables_at (p : string) (d : Day) : Result LpVariable :=
  row <- getitem variables p ;; getitem row d.

(** [slack[p1][p2][d1][d2]] *)
Definition slack_at
  (slack : dict string (dict string (dict Day (dict Day LpVariable))))
  (p1 p2 : string) (d1 d2 : Day) : Result LpVariable :=
  a <- getitem slack p1 ;; b <- getitem a p2 ;;
  c <- getitem b d1 ;; getitem c d2.

Definition PENALTY_6 : Z := 10000.
Definition PENALTY_7 : Z := 10000.
Definition PENALTY_8 : Z := 10000.

(** The index tuples of
    [for p1 in park_names for p2 in park_names for d1 in days for d2 in days] *)
Definition all_quadruples : list (string * string * Day * Day) :=
  flat_map (fun p1 => flat_map (fun p2 => flat_map (fun d1 =>
    map (fun d2 => (p1, p2, d1, d2)) days) days) park_names) park_names.

Definition slack_sum
  (slack : dict string (dict string (dict Day (dict Day LpVariable))))
  : Result (list LpVariable) :=
  mapM (fun q => match q with (p1, p2, d1, d2) => slack_at slack p1 p2 d1 d2 end)
       all_quadruples.

Definition the_objective : Result LpAffineExpression :=
  s6 <- mapM (getitem slack_variables_6) park_names ;;
  s7 <- slack_sum slack_variables_7 ;;
  s8 <- slack_sum slack_variables_8 ;;
  Ok (EAdd (EAdd (EMul PENALTY_6 (lpSum s6)) (EMul PENALTY_7 (lpSum s7)))
           (EMul PENALTY_8 (lpSum s8))).

(** Constraint 1: only one park can be assigned to the same day *)
Definition constraint_1 : LpProblem -> Result LpProblem :=
  for_each days (fun d problem =>
    vs <- mapM (fun p => variables_at p d) park_names ;;
    add_constraint problem (Constraint_1 d) (lpSum vs <= EConst 1)%lp).

(** Constraint 2: each park must be assigned to a day *)
Definition constraint_2 : LpProblem -> Result LpProblem :=
  for_each park_names (fun p problem =>
    vs <- mapM (fun d => variables_at p d) days ;;
    add_constraint problem (Constraint_2 p) (lpSum vs == EConst 1)%lp).

(** Constraint 3: parks that cannot be visited on specific days *)
Definition constraint_3 : LpProblem -> Result LpProblem :=
  for_each parks (fun p =>
    for_each (Park.cannot_visit_days p) (fun d problem =>
      v <- variables_at (Park.name p) d ;;
      add_constraint problem (Constraint_3 (Park.name p) d)
        (EVar v == EConst 0)%lp)).

(** Constraint 4: parks that must be visited on specific days *)
Definition constraint_4 : LpProblem -> Result LpProblem :=
  for_each parks (fun p problem =>
    match Park.must_visit_day p with
    | Some d =>
        v <- variables_at (Park.name p) d ;;
        add_constraint problem (Constraint_4 (Park.name p) d)
          (EVar v == EConst 1)%lp
    | None => Ok problem
    end).

(** Constraint 5: parks that should be avoided on specific days *)
Definition constraint_5 : LpProblem -> Result LpProblem :=
  for_each parks (fun p =>
    for_each (Park.days_to_avoid p) (fun d problem =>
      v <- variables_at (Park.name p) d ;;
      add_constraint problem (Constraint_5 (Park.name p) d)
        (EVar v == EConst 0)%lp)).

(** Constraint 6: preferred days.  The statement of the source is an
    expression statement: the comparison and its name are evaluated, which
    performs the lookups, and the resulting pair is dropped. *)
Definition constraint_6 : LpProblem -> Result LpProblem :=
  for_each parks (fun p problem =>
    vs <- mapM (fun d => variables_at (Park.name p) d)
               (Park.preferred_days p) ;;
    s <- getitem slack_variables_6 (Park.name p) ;;
    let _dropped := (EAdd (lpSum vs) (EVar s) == EConst 1)%lp in
    Ok problem).

(** Constraint 7: two demanding parks on consecutive days *)
Definition constraint_7 : LpProblem -> Result LpProblem :=
  for_each (removelast days) (fun d1 =>
    for_each (enumerate (removelast parks)) (fun ip1 problem =>
      let (idx, p1) := ip1 in
      if Park.demanding p1 then
        for_each (skipn (S idx) parks) (fun p2 problem =>
          if Park.demanding p2 then
            d2 <- date_add d1 1 ;;
            a <- variables_at (Park.name p1) d1 ;;
            b <- variables_at (Park.name p2) d2 ;;
            s <- slack_at slack_variables_7 (Park.name p1) (Park.name p2) d1 d2 ;;
            problem <-
              add_constraint problem
                (Constraint_7 (Park.name p1) (Park.name p2) d1 d2)
                (EAdd (EVar a) (EVar b) <= EAdd (EConst 1) (EVar s))%lp ;;
            a' <- variables_at (Park.name p1) d2 ;;
            b' <- variables_at (Park.name p2) d1 ;;
            s' <- slack_at slack_variables_7 (Park.name p1) (Park.name p2) d1 d2 ;;
            add_constraint problem
              (Constraint_7 (Park.name p1) (Park.name p2) d2 d1)
              (EAdd (EVar a') (EVar b') <= EAdd (EConst 1) (EVar s'))%lp
          else Ok problem) problem
      else Ok problem)).

(** Constraint 8: parks of the same company within its number of days *)
Definition constraint_8 : LpProblem -> Result LpProblem :=
  for_each companies (fun c =>
    for_each (enumerate (removelast parks)) (fun ip1 problem =>
      let (idx, p1) := ip1 in
      if String.eqb (Company.company c) (Park.company p1) then
        for_each (skipn (S idx) parks) (fun p2 problem =>
          if String.eqb (Company.company c) (Park.company p2) then
            for_each (enumerate (removelast days)) (fun id1 =>
              let (idx2, d1) := id1 in
              for_each (skipn (S idx2) days) (fun d2 problem =>
                let delta := d2 - d1 in
                if delta + 1 >? Company.number_of_days c then
                  a <- variables_at (Park.name p1) d1 ;;
                  b <- variables_at (Park.name p2) d2 ;;
                  s <- slack_at slack_variables_8 (Park.name p1) (Park.name p2) d1 d2 ;;
                  problem <-
                    add_constraint problem
                      (Constraint_8 (Park.name p1) (Park.name p2) d1 d2)
                      (EAdd (EVar a) (EVar b) <= EAdd (EConst 1) (EVar s))%lp ;;
                  a' <- variables_at (Park.name p1) d2 ;;
                  b' <- variables_at (Park.name p2) d1 ;;
                  s' <- slack_at slack_variables_8 (Park.name p1) (Park.name p2) d2 d1 ;;
                  add_constraint problem
                    (Constraint_8 (Park.name p1) (Park.name p2) d2 d1)
                    (EAdd (EVar a') (EVar b') <= EAdd (EConst 1) (EVar s'))%lp
                else Ok problem)) problem
          else Ok problem) problem
      else Ok problem)).

Definition build_model : Result LpProblem :=
  let problem := LpProblem_new in
  obj <- the_objective ;;
  let problem := set_objective problem obj in
  problem <- constraint_1 problem ;;
  problem <- constraint_2 problem ;;
  problem <- constraint_3 problem ;;
  problem <- constraint_4 problem ;;
  problem <- constraint_5 problem ;;
  problem <- constraint_6 problem ;;
  problem <- constraint_7 problem ;;
  constraint_8 problem.

End Builder.

(** ** Solving and printing: lines 90 to 102 of the source *)

Inductive LpStatus :=
| LpStatusNotSolved
| LpStatusOptimal
| LpStatusInfeasible
| LpStatusUnbounded
| LpStatusUndefined.

(** [problem.status], the integer behind each status of [pulp.LpStatus] *)
Definition status_code (s : LpStatus) : Z :=
  match s with
  | LpStatusNotSolved => 0
  | LpStatusOptimal => 1
  | LpStatusInfeasible => -1
  | LpStatusUnbounded => -2
  | LpStatusUndefined => -3
  end.

(** What [problem.solve] leaves behind: the status and, per variable, its
    [varValue] ([None] as long as the solver has not set it). *)
Record Solution := mkSolution {
  status : LpStatus;
  varValue : LpVariable -> option Q
}.

(** Truth value of a [varValue] in [if(value)] *)
Definition truthy (o : option Q) : bool :=
  match o with
  | None => false
  | Some q => negb (Qeq_bool q 0)
  end.

Definition lift2 (f : Q -> Q -> Q) (a b : option Q) : option Q :=
  match a, b with
  | Some x, Some y => Some (f x y)
  | _, _ => None
  end.

(** [pulp.value(e)]: [None] as soon as a variable of [e] has no value *)
Fixpoint value (vals : LpVariable -> option Q) (e : LpAffineExpression)
  : option Q :=
  match e with
  | EVar v => vals v
  | EConst k => Some (inject_Z k)
  | lpSum vs => fold_right (fun v acc => lift2 Qplus (vals v) acc) (Some 0%Q) vs
  | EAdd a b => lift2 Qplus (value vals a) (value vals b)
  | EMul k e' => lift2 Qmult (Some (inject_Z k)) (value vals e')
  end.

(** A line written by [print] *)
Inductive Line :=
| PrintStatus (s : LpStatus)
| PrintObjective (o : option Q)
| PrintVisit (d : Day) (p : string).

Section Printer.
Variable days : list Day.
Variable parks : list Park.t.

Definition print_solution (problem : LpProblem) (sol : Solution)
  : Result (list Line) :=
  let out := [PrintStatus (status sol)] in
  let out := out ++ [PrintObjective
                       match objective problem with
                       | Some e => value (varValue sol) e
                       | None => None
                       end] in
  if status_code (status sol) >=? 0 then
    for_each days (fun x =>
      for_each parks (fun y out =>
        v <- variables_at days parks (Park.name y) x ;;
        let value := varValue sol v in
        if truthy value then Ok (out ++ [PrintVisit x (Park.name y)])
        else Ok out)) out
  else Ok out.
End Printer.

(** The whole function; [solve] stands for
    [problem.solve(pulp.PULP_CBC_CMD(timeLimit=300))].  The function returns
    [None]: what it produces is what it prints. *)
Definition optimize_park_scheduling (solve : LpProblem -> Solution)
  (days : list Day) (parks : list Park.t) (companies : list Company.t)
  : Result (list Line) :=
  problem <- build_model days parks companies ;;
  print_solution days parks problem (solve problem).

(** ** Meaning of a model *)

Definition Assignment := LpVariable -> Q.

Fixpoint eval (v : Assignment) (e : LpAffineExpression) : Q :=
  match e with
  | EVar x => v x
  | EConst k => inject_Z k
  | lpSum vs => fold_right (fun x acc => v x + acc)%Q 0%Q vs
  | EAdd a b => (eval v a + eval v b)%Q
  | EMul k e' => (inject_Z k * eval v e')%Q
  end.

Definition holds (v : Assignment) (c : LpConstraint) : Prop :=
  match sense c with
  | LpConstraintLE => (eval v (lhs c) <= eval v (rhs c))%Q
  | LpConstraintEQ => (eval v (lhs c) == eval v (rhs c))%Q
  end.

(** The rules 1 to 5 carry no slack variable. *)
Definition is_hard (n : ConstraintName) : bool :=
  match n with
  | Constraint_1 _ | Constraint_2 _ | Constraint_3 _ _
  | Constraint_4 _ _ | Constraint_5 _ _ => true
  | Constraint_7 _ _ _ _ | Constraint_8 _ _ _ _ => false
  end.

Definition satisfies_hard (v : Assignment) (problem : LpProblem) : Prop :=
  forall n c, In (n, c) (constraints problem) -> is_hard n = true -> holds v c.

Definition satisfies (v : Assignment) (problem : LpProblem) : Prop :=
  forall n c, In (n, c) (constraints problem) -> holds v c.

(** The park variables are declared [LpInteger] between 0 and 1. *)
Definition binary (v : Assignment) : Prop :=
  forall p d, (v (park_schedule p d) == 0 \/ v (park_schedule p d) == 1)%Q.

(** The variables an expression mentions *)
Fixpoint vars_of (e : LpAffineExpression) : list LpVariable :=
  match e with
  | EVar x => [x]
  | EConst _ => []
  | lpSum vs => vs
  | EAdd a b => vars_of a ++ vars_of b
  | EMul _ e' => vars_of e'
  end.

Definition constraint_vars (c : LpConstraint) : list LpVariable :=
  vars_of (lhs c) ++ vars_of (rhs c).

(** The visits a printed output lists, in the order printed *)
Definition visits (out : list Line) : list (Day * string) :=
  flat_map (fun l => match l with PrintVisit d p => [(d, p)] | _ => [] end) out.

(** ** The constraints each block generates, as plain lists *)

Section Generated.
Variable days : list Day.
Variable parks : list Park.t.
Variable companies : list Company.t.

Definition one_park_per_day (d : Day) : Named :=
  (Constraint_1 d,
   (lpSum (map (fun p => park_schedule p d) (park_names parks)) <= EConst 1)%lp).

Definition one_day_per_park (p : string) : Named :=
  (Constraint_2 p,
   (lpSum (map (fun d => park_schedule p d) days) == EConst 1)%lp).

Definition cannot_visit (p : string) (d : Day) : Named :=
  (Constraint_3 p d, (EVar (park_schedule p d) == EConst 0)%lp).

Definition must_visit (p : string) (d : Day) : Named :=
  (Constraint_4 p d, (EVar (park_schedule p d) == EConst 1)%lp).

Definition avoid (p : string) (d : Day) : Named :=
  (Constraint_5 p d, (EVar (park_schedule p d) == EConst 0)%lp).

(** [p1] on [d], [p2] on [d'], relaxed by the slack variable [s] *)
Definition not_both (p1 p2 : string) (d d' : Day) (s : LpVariable)
  : LpConstraint :=
  (EAdd (EVar (park_schedule p1 d)) (EVar (park_schedule p2 d'))
   <= EAdd (EConst 1) (EVar s))%lp.

Definition consecutive (p1 p2 : string) (d1 : Day) : list Named :=
  let d2 := d1 + 1 in
  [(Constraint_7 p1 p2 d1 d2, not_both p1 p2 d1 d2 (slack_7 p1 p2 d1 d2));
   (Constraint_7 p1 p2 d2 d1, not_both p1 p2 d2 d1 (slack_7 p1 p2 d1 d2))].

Definition window (p1 p2 : string) (d1 d2 : Day) : list Named :=
  [(Constraint_8 p1 p2 d1 d2, not_both p1 p2 d1 d2 (slack_8 p1 p2 d1 d2));
   (Constraint_8 p1 p2 d2 d1, not_both p1 p2 d2 d1 (slack_8 p1 p2 d2 d1))].

Definition rules_1 : list Named := flat_map (fun d => [one_park_per_day d]) days.

Definition rules_2 : list Named :=
  flat_map (fun p => [one_day_per_park p]) (park_names parks).

Definition rules_3 : list Named :=
  flat_map (fun p =>
    flat_map (fun d => [cannot_visit (Park.name p) d]) (Park.cannot_visit_days p))
    parks.

Definition rules_4 : list Named :=
  flat_map (fun p =>
    match Park.must_visit_day p with
    | Some d => [must_visit (Park.name p) d]
    | None => []
    end) parks.

Definition rules_5 : list Named :=
  flat_map (fun p =>
    flat_map (fun d => [avoid (Park.name p) d]) (Park.days_to_avoid p))
    parks.

Definition rules_7_pair (d1 : Day) (p1 p2 : Park.t) : list Named :=
  if Park.demanding p2 then consecutive (Park.name p1) (Park.name p2) d1
  else [].

Definition rules_7_park (d1 : Day) (ip1 : nat * Park.t) : list Named :=
  if Park.demanding (snd ip1)
  then flat_map (rules_7_pair d1 (snd ip1)) (skipn (S (fst ip1)) parks)
  else [].

Definition rules_7 : list Named :=
  flat_map (fun d1 =>
    flat_map (rules_7_park d1) (enumerate (removelast parks)))
    (removelast days).

Definition rules_8_days (c : Company.t) (p1 p2 : Park.t) (d1 d2 : Day)
  : list Named :=
  if d2 - d1 + 1 >? Company.number_of_days c
  then window (Park.name p1) (Park.name p2) d1 d2
  else [].

Definition rules_8_pair (c : Company.t) (p1 p2 : Park.t) : list Named :=
  if String.eqb (Company.company c) (Park.company p2)
  then flat_map (fun id1 =>
         flat_map (rules_8_days c p1 p2 (snd id1)) (skipn (S (fst id1)) days))
         (enumerate (removelast days))
  else [].

Definition rules_8_park (c : Company.t) (ip1 : nat * Park.t) : list Named :=
  if String.eqb (Company.company c) (Park.company (snd ip1))
  then flat_map (rules_8_pair c (snd ip1)) (skipn (S (fst ip1)) parks)
  else [].

Definition rules_8 : list Named :=
  flat_map (fun c =>
    flat_map (rules_8_park c) (enumerate (removelast parks))) companies.

Definition all_rules : list Named :=
  rules_1 ++ rules_2 ++ rules_3 ++ rules_4 ++ rules_5 ++ rules_7 ++ rules_8.

Definition penalties : LpAffineExpression :=
  EAdd (EAdd (EMul PENALTY_6 (lpSum (map slack_6 (park_names parks))))
             (EMul PENALTY_7 (lpSum
                (map (fun q => match q with (p1, p2, d1, d2) => slack_7 p1 p2 d1 d2 end)
                     (all_quadruples days parks)))))
       (EMul PENALTY_8 (lpSum
          (map (fun q => match q with (p1, p2, d1, d2) => slack_8 p1 p2 d1 d2 end)
               (all_quadruples days parks)))).

(** Every day an activity refers to is one of [days]. *)
Definition days_known (p : Park.t) : Prop :=
  incl (Park.cannot_visit_days p) days /\
  (forall d, Park.must_visit_day p = Some d -> In d days) /\
  incl (Park.days_to_avoid p) days /\
  incl (Park.preferred_days p) days.

(** Every day but the last is followed by its calendar successor. *)
Definition successors_known : Prop :=
  forall d, In d (removelast days) -> In (d + 1) days.

(** The exception of a lookup [variables[p][d]] for a day outside [days] *)
Definition absent_day (e : Error) : Prop :=
  exists d, e = KeyError (KDay d) /\ ~ In d days.

Definition demanding_pair : Prop :=
  exists p1 p2, precedes parks p1 p2 /\
    Park.demanding p1 = true /\ Park.demanding p2 = true.

(** No two of the constraints that the blocks generate get the same name
    from PuLP. *)
Definition names_distinct : Prop :=
  NoDup (map (fun nc => pulp_name (fst nc)) all_rules).

(** [d] is a day that park [p] lists. *)
Definition listed (p : Park.t) (d : Day) : Prop :=
  In d (Park.cannot_visit_days p) \/ Park.must_visit_day p = Some d \/
  In d (Park.days_to_avoid p) \/ In d (Park.preferred_days p).

(** A day that a park lists is not a day of the trip: the exception of
    the lookup in blocks 3 to 6. *)
Definition absent_listed (e : Error) : Prop :=
  exists p d, In p parks /\ listed p d /\ ~ In d days /\
              e = KeyError (KDay d).

(** Block 7 looks up the successor of a day other than the last, which is
    no calendar date or not a day of the trip. *)
Definition successor_failure (e : Error) : Prop :=
  demanding_pair /\
  exists d, In d (removelast days) /\
    ((~ valid_date (d + 1) /\ e = OverflowError) \/
     (~ In (d + 1) days /\ e = KeyError (KDay (d + 1)))).

(** The exceptions of the lookups, block 7 being reached only when every
    listed day is a day of the trip. *)
Definition lookup_failure (e : Error) : Prop :=
  absent_listed e \/
  ((forall p, In p parks -> days_known p) /\ successor_failure e).

End Generated.

(** The names of the constraints [cs] are new to the problem and differ
    from one another. *)
Definition fresh_names (problem : LpProblem) (cs : list Named) : Prop :=
  NoDup (held problem ++ map (fun nc => pulp_name (fst nc)) cs).

(** ** The preferred-day rule as the source writes it (line 65) *)

Definition preferred_days_constraint (p : Park.t) : LpConstraint :=
  (EAdd (lpSum (map (park_schedule (Park.name p)) (Park.preferred_days p)))
        (EVar (slack_6 (Park.name p)))
   == EConst 1)%lp.

(** [x[p][d] == 0] *)
Definition zeroed (p : string) (d : Day) : LpConstraint :=
  (EVar (park_schedule p d) == EConst 0)%lp.

(** ** Small inputs on which the statements below are exercised *)

Module Sample.

Definition epcot : Park.t :=
  Park.mk "Epcot" "Disney" true [2] None [3] [1].

Definition aquatica : Park.t :=
  Park.mk "Aquatica" "Sea World" false [] None [] [].

Definition kingdom : Park.t :=
  Park.mk "Magic Kingdom" "Disney" true [] None [] [].

(** A park that must be visited on a day on which it cannot be visited *)
Definition cove : Park.t :=
  Park.mk "Discovery Cove" "Sea World" false [2] (Some 2) [] [].

Definition disney : Company.t := Company.mk "Disney" 2.
Definition sea_world : Company.t := Company.mk "Sea World" 14.

Definition model_of (r : Result LpProblem) : LpProblem :=
  match r with
  | Ok m => m
  | Raise _ => LpProblem_new
  end.

Definition one_park : LpProblem :=
  Eval vm_compute in model_of (build_model [1; 2; 3; 4] [epcot] [disney]).

End Sample.

(** ** Telling the soft rules apart *)

Definition is_rule_7 (n : ConstraintName) : bool :=
  match n with
  | Constraint_7 _ _ _ _ => true
  | _ => false
  end.

Definition is_rule_8 (n : ConstraintName) : bool :=
  match n with
  | Constraint_8 _ _ _ _ => true
  | _ => false
  end.

Definition mentions_slack_7 (c : LpConstraint) : Prop :=
  exists p1 p2 d1 d2, In (slack_7 p1 p2 d1 d2) (constraint_vars c).

Definition mentions_slack_8 (c : LpConstraint) : Prop :=
  exists p1 p2 d1 d2, In (slack_8 p1 p2 d1 d2) (constraint_vars c).

Module Sample2.

Definition three_parks : LpProblem :=
  Eval vm_compute in
    Sample.model_of
      (build_model [1; 2; 3; 4]
         [Sample.epcot; Sample.aquatica; Sample.kingdom]
         [Sample.disney; Sample.sea_world]).

End Sample2.

Module Sample3.

Definition universal : Park.t :=
  Park.mk "Universal Studios" "Universal" true [] None [] [].

Definition islands : Park.t :=
  Park.mk "Islands of Adventure" "Universal" true [] None [] [].

Definition universal_co : Company.t := Company.mk "Universal" 2.

Definition universal_parks : LpProblem :=
  Eval vm_compute in
    Sample.model_of
      (build_model [1; 2; 3; 4] [universal; islands] [universal_co]).

End Sample3.

(** ** Variables of the objective, the printed schedule and its checks *)

Definition objective_vars (m : LpProblem) : list LpVariable :=
  match objective m with
  | Some e => vars_of e
  | None => []
  end.

(** The instances for which the specification lists a [slack_consec]
    variable: two distinct demanding activities, [d2] the successor of [d1] *)
Definition listed_slack_7 (days : list Day) (parks : list Park.t)
  (p1 p2 : string) (d1 d2 : Day) : Prop :=
  exists a1 a2,
    In a1 parks /\ In a2 parks /\ Park.name a1 = p1 /\ Park.name a2 = p2 /\
    p1 <> p2 /\ Park.demanding a1 = true /\ Park.demanding a2 = true /\
    In d1 days /\ In d2 days /\ d2 = d1 + 1.

(** The instances for which the specification lists a [slack_window]
    variable: two activities of one company, [d1 < d2] *)
Definition listed_slack_8 (days : list Day) (parks : list Park.t)
  (p1 p2 : string) (d1 d2 : Day) : Prop :=
  exists a1 a2,
    In a1 parks /\ In a2 parks /\ Park.name a1 = p1 /\ Park.name a2 = p2 /\
    Park.company a1 = Park.company a2 /\
    In d1 days /\ In d2 days /\ d1 < d2.

(** The visits printed for given values, day by day and park by park *)
Definition schedule (days : list Day) (parks : list Park.t)
  (vals : LpVariable -> option Q) : list (Day * string) :=
  flat_map (fun x =>
    flat_map (fun y =>
      if truthy (vals (park_schedule (Park.name y) x))
      then [(x, Park.name y)] else []) parks) days.

Definition visit_line (v : Day * string) : Line := PrintVisit (fst v) (snd v).

(** The check the specification asks of the extractor: every activity
    exactly once, no day twice *)
Definition schedule_consistent (parks : list Park.t)
  (vs : list (Day * string)) : Prop :=
  (forall p, In p parks ->
     count_occ string_dec (map snd vs) (Park.name p) = 1%nat) /\
  NoDup (map fst vs).

(** The inputs the specification calls malformed *)
Definition malformed (days : list Day) (parks : list Park.t)
  (companies : list Company.t) : Prop :=
  (exists p d, In p parks /\ Park.must_visit_day p = Some d /\
               In d (Park.cannot_visit_days p)) \/
  (exists c, In c companies /\
             forall p, In p parks -> Park.company p <> Company.company c) \/
  (exists p, In p parks /\
             forall c, In c companies -> Park.company p <> Company.company c) \/
  days = [].

Module Sample4.

Definition lone_park : LpProblem :=
  Eval vm_compute in
    Sample.model_of (build_model [1] [Sample.aquatica] [Sample.sea_world]).

Definition no_days : LpProblem :=
  Eval vm_compute in
    Sample.model_of (build_model [] [Sample.aquatica] [Sample.sea_world]).

Definition contradictory : LpProblem :=
  Eval vm_compute in
    Sample.model_of
      (build_model [1; 2; 3] [Sample.cove] [Sample.sea_world; Sample.disney]).

(** A solver that reports an optimum in which every variable is 1 *)
Definition all_ones (_ : LpProblem) : Solution :=
  mkSolution LpStatusOptimal (fun _ => Some 1%Q).

End Sample4.

(** ** Sums of values *)

Definition qsum {A} (f : A -> Q) (l : list A) : Q :=
  fold_right (fun a acc => (f a + acc)%Q) 0%Q l.

Definition nsum {A} (f : A -> nat) (l : list A) : nat :=
  fold_right (fun a acc => (f a + acc)%nat) 0%nat l.

Definition ind (b : bool) : nat := if b then 1%nat else 0%nat.

(** Whether the printing loop lists park [p] on day [d] under the values [v] *)
Definition assigned (v : Assignment) (p : string) (d : Day) : bool :=
  truthy (Some (v (park_schedule p d))).

(** The visits of day [x] among the parks [names] *)
Definition row (names : list string) (b : string -> Day -> bool) (x : Day)
  : list (Day * string) :=
  flat_map (fun n => if b n x then [(x, n)] else []) names.

Module Sample5.

(** Aquatica on day 1, Magic Kingdom on day 2 *)
Definition plan : Assignment := fun x =>
  match x with
  | park_schedule p d =>
      if (String.eqb p "Aquatica" && (d =? 1))
         || (String.eqb p "Magic Kingdom" && (d =? 2))
      then 1%Q else 0%Q
  | _ => 0%Q
  end.

Definition solved : Solution :=
  mkSolution LpStatusOptimal (fun x => Some (plan x)).

Definition two_parks : LpProblem :=
  Eval vm_compute in
    Sample.model_of
      (build_model [1; 2] [Sample.aquatica; Sample.kingdom]
         [Sample.sea_world; Sample.disney]).

End Sample5.

Module Sample6.

(** A park that must be visited on day 2 *)
Definition cove : Park.t :=
  Park.mk "Discovery Cove" "Sea World" false [] (Some 2) [1] [].

Definition cove_alone : LpProblem :=
  Eval vm_compute in
    Sample.model_of (build_model [1; 2; 3] [cove] [Sample.sea_world]).

Definition plan : Assignment := fun x =>
  match x with
  | park_schedule _ d => if d =? 2 then 1%Q else 0%Q
  | _ => 0%Q
  end.

Definition solved : Solution :=
  mkSolution LpStatusOptimal (fun x => Some (plan x)).

(** Two demanding parks of one company on two days *)
Definition two_days : LpProblem :=
  Eval vm_compute in
    Sample.model_of
      (build_model [1; 2] [Sample3.universal; Sample3.islands]
         [Sample3.universal_co]).

(** Universal Studios on day 1, Islands of Adventure on day 2, the slack
    of rule 7 for these parks and days paid *)
Definition back_to_back : Assignment := fun x =>
  match x with
  | park_schedule p d =>
      if (String.eqb p "Universal Studios" && (d =? 1))
         || (String.eqb p "Islands of Adventure" && (d =? 2))
      then 1%Q else 0%Q
  | slack_7 p1 p2 d1 d2 =>
      if String.eqb p1 "Universal Studios"
         && String.eqb p2 "Islands of Adventure" && (d1 =? 1) && (d2 =? 2)
      then 1%Q else 0%Q
  | _ => 0%Q
  end.

End Sample6.

(** ** The days of the trip: lines 105 to 107 of the source *)

(** [[first_day + timedelta(days=x)
      for x in range(0, (last_day - first_day).days + 1)]] *)
Definition trip_days (first_day last_day : Day) : Result (list Day) :=
  mapM (fun x => date_add first_day (Z.of_nat x))
       (seq 0 (Z.to_nat (last_day - first_day + 1))).

Module Sample7.

Definition three_days : LpProblem :=
  Eval vm_compute in
    Sample.model_of
      (build_model [1; 2; 3] [Sample3.universal; Sample3.islands]
         [Sample3.universal_co]).

(** Universal Studios on day 1, Islands of Adventure on day 3, beyond the
    two days of the company, the slack of rule 8 paid *)
Definition spread : Assignment := fun x =>
  match x with
  | park_schedule p d =>
      if (String.eqb p "Universal Studios" && (d =? 1))
         || (String.eqb p "Islands of Adventure" && (d =? 3))
      then 1%Q else 0%Q
  | slack_8 p1 p2 d1 d2 =>
      if String.eqb p1 "Universal Studios"
         && String.eqb p2 "Islands of Adventure" && (d1 =? 1) && (d2 =? 3)
      then 1%Q else 0%Q
  | _ => 0%Q
  end.

Definition spread_solved : Solution :=
  mkSolution LpStatusOptimal (fun x => Some (spread x)).

(** The parks of Universal with only Disney among the companies *)
Definition unlisted : LpProblem :=
  Eval vm_compute in
    Sample.model_of
      (build_model [1; 2; 3] [Sample3.universal; Sample3.islands]
         [Sample.disney]).

End Sample7.

(** The assignment [v] with every slack variable raised to its upper bound *)
Definition relaxed (v : Assignment) : Assignment := fun x =>
  match x with
  | park_schedule _ _ => v x
  | _ => 1%Q
  end.

Module Sample8.

(** Two names that PuLP rewrites to the same text *)
Definition spaced : Park.t := Park.mk "A B" "Universal" true [] None [] [].
Definition underscored : Park.t := Park.mk "A_B" "Universal" true [] None [] [].

(** One day, two parks *)
Definition crowded : LpProblem :=
  Eval vm_compute in
    Sample.model_of
      (build_model [1] [Sample.aquatica; Sample.kingdom]
         [Sample.sea_world; Sample.disney]).

(** A solver that reports a problem without constraints as solved and any
    other as infeasible *)
Definition wary (problem : LpProblem) : Solution :=
  match constraints problem with
  | [] => mkSolution LpStatusOptimal (fun _ => Some 0%Q)
  | _ => mkSolution LpStatusInfeasible (fun _ => None)
  end.

End Sample8.

(** * Properties of the model *)

(** Split a hypothesis [x <- c ;; k = Ok _] on the result of [c]. *)
Ltac bind_inv H :=
  match type of H with
  | bind ?c _ = Ok _ =>
      let E := fresh "E" in
      destruct c eqn:E; simpl in H; [|discriminate H]
  end.

(** ** Loops that append *)

Section Loops.
Context {S C : Type} (ext : S -> list C -> S).
Hypothesis ext_nil : forall s, ext s [] = s.
Hypothesis ext_app : forall s a b, ext (ext s a) b = ext s (a ++ b).

Lemma for_each_inv {A} (l : list A) (body : A -> S -> Result S)
  (g : A -> list C) :
  (forall a s s', In a l -> body a s = Ok s' -> s' = ext s (g a)) ->
  forall s s', for_each l body s = Ok s' -> s' = ext s (flat_map g l).
Proof.
  induction l as [|a l IH]; simpl; intros Hb s s' H.
  - inversion H; subst. now rewrite ext_nil.
  - destruct (body a s) as [s1|e] eqn:E; simpl in H; [|discriminate].
    apply Hb in E; [|now left]. subst s1.
    apply IH in H; [|intros; eapply Hb; eauto].
    now rewrite H, ext_app.
Qed.

Lemma for_each_ok {A} (l : list A) (body : A -> S -> Result S)
  (g : A -> list C) :
  (forall a s, In a l -> body a s = Ok (ext s (g a))) ->
  forall s, for_each l body s = Ok (ext s (flat_map g l)).
Proof.
  induction l as [|a l IH]; simpl; intros Hb s.
  - now rewrite ext_nil.
  - rewrite Hb by now left. simpl.
    rewrite IH by (intros; apply Hb; now right).
    now rewrite ext_app.
Qed.

Lemma for_each_raise_inv {A} (l : list A) (body : A -> S -> Result S)
  (P : Error -> Prop) :
  (forall a s e, In a l -> body a s = Raise e -> P e) ->
  forall s e, for_each l body s = Raise e -> P e.
Proof.
  induction l as [|a l IH]; simpl; intros Hb s e H.
  - discriminate.
  - destruct (body a s) as [s1|e1] eqn:E; simpl in H.
    + eapply IH; eauto.
    + inversion H; subst. eapply Hb; eauto.
Qed.

Lemma for_each_raise {A} (l : list A) (body : A -> S -> Result S) :
  (exists a, In a l /\ forall s, exists e, body a s = Raise e) ->
  forall s, exists e, for_each l body s = Raise e.
Proof.
  induction l as [|a l IH]; simpl; intros [x [Hx Hr]] s.
  - contradiction.
  - destruct (body a s) as [s1|e1] eqn:E; simpl.
    + destruct Hx as [->|Hx].
      * destruct (Hr s) as [e He]. congruence.
      * apply IH. eauto.
    + eauto.
Qed.
End Loops.

Lemma add_constraints_nil (s : LpProblem) : add_constraints s [] = s.
Proof. destruct s. unfold add_constraints. simpl. now rewrite app_nil_r. Qed.

Lemma add_constraints_app (s : LpProblem) (a b : list Named) :
  add_constraints (add_constraints s a) b = add_constraints s (a ++ b).
Proof. unfold add_constraints. simpl. now rewrite app_assoc. Qed.

Lemma mapM_inv {A B} (f : A -> Result B) (g : A -> B) (l : list A) :
  (forall a b, In a l -> f a = Ok b -> b = g a) ->
  forall bs, mapM f l = Ok bs -> bs = map g l.
Proof.
  induction l as [|a l IH]; simpl; intros Hf bs H.
  - now inversion H.
  - destruct (f a) as [b|e] eqn:E; simpl in H; [|discriminate].
    destruct (mapM f l) as [bs'|e] eqn:E'; simpl in H; [|discriminate].
    inversion H; subst. f_equal; eauto.
Qed.

Lemma mapM_ok {A B} (f : A -> Result B) (g : A -> B) (l : list A) :
  (forall a, In a l -> f a = Ok (g a)) -> mapM f l = Ok (map g l).
Proof.
  induction l as [|a l IH]; simpl; intros Hf; [reflexivity|].
  rewrite Hf by now left. simpl. rewrite IH by auto. reflexivity.
Qed.

Lemma mapM_raise_inv {A B} (f : A -> Result B) (P : Error -> Prop) (l : list A) :
  (forall a e, In a l -> f a = Raise e -> P e) ->
  forall e, mapM f l = Raise e -> P e.
Proof.
  induction l as [|a l IH]; simpl; intros Hf e H; [discriminate|].
  destruct (f a) as [b|e1] eqn:E; simpl in H.
  - destruct (mapM f l) as [bs|e2] eqn:E'; simpl in H; [discriminate|].
    inversion H; subst. eauto.
  - inversion H; subst. eauto.
Qed.

(** ** Dictionary lookups *)

Lemma getitem_dicts_in {K V} `{KeyType K} (index : list K) (mk : K -> V) k :
  In k index -> getitem (dicts index mk) k = Ok (mk k).
Proof.
  induction index as [|i index IH]; simpl; [contradiction|].
  intros Hin. destruct (key_eqb i k) eqn:E.
  - apply key_eqb_eq in E. now subst.
  - destruct Hin as [->|Hin]; [|auto].
    assert (key_eqb k k = true) by now apply key_eqb_eq. congruence.
Qed.

Lemma getitem_dicts_notin {K V} `{KeyType K} (index : list K) (mk : K -> V) k :
  ~ In k index -> getitem (dicts index mk) k = Raise (KeyError (as_key k)).
Proof.
  induction index as [|i index IH]; simpl; [reflexivity|].
  intros Hn. destruct (key_eqb i k) eqn:E.
  - apply key_eqb_eq in E. tauto.
  - apply IH. tauto.
Qed.

Lemma key_in_dec {K} `{KeyType K} (k : K) (l : list K) : {In k l} + {~ In k l}.
Proof.
  apply in_dec. intros a b. destruct (key_eqb a b) eqn:E.
  - left. now apply key_eqb_eq.
  - right. intros ->. assert (key_eqb b b = true) by now apply key_eqb_eq.
    congruence.
Qed.

Lemma getitem_dicts_inv {K V} `{KeyType K} (index : list K) (mk : K -> V) k v :
  getitem (dicts index mk) k = Ok v -> v = mk k /\ In k index.
Proof.
  intros Hg. destruct (key_in_dec k index) as [Hin|Hn].
  - rewrite getitem_dicts_in in Hg by assumption. inversion Hg. auto.
  - rewrite getitem_dicts_notin in Hg by assumption. discriminate.
Qed.

Lemma date_add_inv (d n o : Z) : date_add d n = Ok o -> o = d + n /\ valid_date o.
Proof.
  unfold date_add, valid_date.
  destruct (0 <? d + n) eqn:E1; destruct (d + n <=? MAXORDINAL) eqn:E2;
    simpl; intros H; inversion H; subst.
  apply Z.ltb_lt in E1. apply Z.leb_le in E2. auto.
Qed.

Lemma date_add_ok (d n : Z) : valid_date (d + n) -> date_add d n = Ok (d + n).
Proof.
  unfold date_add, valid_date. intros [H1 H2].
  apply Z.ltb_lt in H1. apply Z.leb_le in H2. now rewrite H1, H2.
Qed.

Lemma add_constraint_inv s n c s' :
  add_constraint s n c = Ok s' ->
  s' = add_constraints s [(n, c)] /\ ~ In (pulp_name n) (held s).
Proof.
  unfold add_constraint.
  destruct (existsb (String.eqb (pulp_name n)) (held s)) eqn:E;
    intros H; inversion H; subst. split; [reflexivity|].
  intros Hin. assert (Ht : existsb (String.eqb (pulp_name n)) (held s) = true).
  { apply existsb_exists. exists (pulp_name n). split; [assumption|].
    apply String.eqb_refl. }
  congruence.
Qed.

Lemma add_constraint_fresh s n c :
  ~ In (pulp_name n) (held s) ->
  add_constraint s n c = Ok (add_constraints s [(n, c)]).
Proof.
  intros Hn. unfold add_constraint.
  destruct (existsb (String.eqb (pulp_name n)) (held s)) eqn:E; [|reflexivity].
  exfalso. apply Hn. apply existsb_exists in E. destruct E as [x [Hx E]].
  apply String.eqb_eq in E. now subst.
Qed.

Section BuilderFacts.
Variable days : list Day.
Variable parks : list Park.t.
Variable companies : list Company.t.

Local Abbreviation names := (park_names parks).

Lemma variables_at_in p d :
  In p names -> In d days ->
  variables_at days parks p d = Ok (park_schedule p d).
Proof.
  intros Hp Hd. unfold variables_at, variables.
  rewrite getitem_dicts_in by assumption. simpl.
  now rewrite getitem_dicts_in.
Qed.

Lemma variables_at_notin p d :
  In p names -> ~ In d days ->
  variables_at days parks p d = Raise (KeyError (KDay d)).
Proof.
  intros Hp Hd. unfold variables_at, variables.
  rewrite getitem_dicts_in by assumption. simpl.
  now rewrite getitem_dicts_notin.
Qed.

Lemma variables_at_inv p d v :
  variables_at days parks p d = Ok v ->
  v = park_schedule p d /\ In p names /\ In d days.
Proof.
  unfold variables_at, variables. intros H. bind_inv H.
  apply getitem_dicts_inv in E. destruct E as [-> Hp].
  apply getitem_dicts_inv in H. tauto.
Qed.

Lemma slack_at_in mk p1 p2 d1 d2 :
  In p1 names -> In p2 names -> In d1 days -> In d2 days ->
  slack_at (dicts4 days parks mk) p1 p2 d1 d2 = Ok (mk p1 p2 d1 d2).
Proof.
  intros. unfold slack_at, dicts4.
  rewrite getitem_dicts_in by assumption. simpl.
  rewrite getitem_dicts_in by assumption. simpl.
  rewrite getitem_dicts_in by assumption. simpl.
  now rewrite getitem_dicts_in.
Qed.

Lemma slack_at_inv mk p1 p2 d1 d2 v :
  slack_at (dicts4 days parks mk) p1 p2 d1 d2 = Ok v -> v = mk p1 p2 d1 d2.
Proof.
  unfold slack_at, dicts4. intros H.
  bind_inv H. apply getitem_dicts_inv in E. destruct E as [-> _].
  bind_inv H. apply getitem_dicts_inv in E. destruct E as [-> _].
  bind_inv H. apply getitem_dicts_inv in E. destruct E as [-> _].
  apply getitem_dicts_inv in H. tauto.
Qed.

Lemma name_in p : In p parks -> In (Park.name p) names.
Proof. apply in_map. Qed.

(** *** What a block that returns has added *)

Lemma constraint_1_inv s s' :
  constraint_1 days parks s = Ok s' ->
  s' = add_constraints s (rules_1 days parks).
Proof.
  apply (for_each_inv add_constraints add_constraints_nil add_constraints_app).
  intros d p p' _ H. bind_inv H. apply add_constraint_inv in H.
  destruct H as [-> _].
  apply mapM_inv with (g := fun p => park_schedule p d) in E.
  - now subst.
  - intros x y _ Hv. now apply variables_at_inv in Hv.
Qed.

Lemma constraint_2_inv s s' :
  constraint_2 days parks s = Ok s' ->
  s' = add_constraints s (rules_2 days parks).
Proof.
  apply (for_each_inv add_constraints add_constraints_nil add_constraints_app).
  intros p q q' _ H. bind_inv H. apply add_constraint_inv in H.
  destruct H as [-> _].
  apply mapM_inv with (g := fun d => park_schedule p d) in E.
  - now subst.
  - intros x y _ Hv. now apply variables_at_inv in Hv.
Qed.

Lemma constraint_3_inv s s' :
  constraint_3 days parks s = Ok s' ->
  s' = add_constraints s (rules_3 parks).
Proof.
  apply (for_each_inv add_constraints add_constraints_nil add_constraints_app).
  intros p q q' _.
  apply (for_each_inv add_constraints add_constraints_nil add_constraints_app).
  intros d r r' _ H. bind_inv H. apply add_constraint_inv in H.
  destruct H as [-> _].
  apply variables_at_inv in E. now destruct E as [-> _].
Qed.

Lemma constraint_4_inv s s' :
  constraint_4 days parks s = Ok s' ->
  s' = add_constraints s (rules_4 parks).
Proof.
  apply (for_each_inv add_constraints add_constraints_nil add_constraints_app).
  intros p q q' _ H. destruct (Park.must_visit_day p) as [d|].
  - bind_inv H. apply add_constraint_inv in H. destruct H as [-> _].
    apply variables_at_inv in E. now destruct E as [-> _].
  - inversion H; subst. now rewrite add_constraints_nil.
Qed.

Lemma constraint_5_inv s s' :
  constraint_5 days parks s = Ok s' ->
  s' = add_constraints s (rules_5 parks).
Proof.
  apply (for_each_inv add_constraints add_constraints_nil add_constraints_app).
  intros p q q' _.
  apply (for_each_inv add_constraints add_constraints_nil add_constraints_app).
  intros d r r' _ H. bind_inv H. apply add_constraint_inv in H.
  destruct H as [-> _].
  apply variables_at_inv in E. now destruct E as [-> _].
Qed.

(** Block 6 adds nothing. *)
Lemma constraint_6_inv s s' : constraint_6 days parks s = Ok s' -> s' = s.
Proof.
  intros H.
  apply (for_each_inv add_constraints add_constraints_nil add_constraints_app)
    with (g := fun _ => []) in H.
  - rewrite H. clear H. induction parks; simpl; auto using add_constraints_nil.
  - intros p q q' _ Hb. bind_inv Hb. bind_inv Hb. inversion Hb; subst.
    now rewrite add_constraints_nil.
Qed.

Lemma constraint_7_inv s s' :
  constraint_7 days parks s = Ok s' ->
  s' = add_constraints s (rules_7 days parks).
Proof.
  apply (for_each_inv add_constraints add_constraints_nil add_constraints_app).
  intros d1 q q' _.
  apply (for_each_inv add_constraints add_constraints_nil add_constraints_app).
  intros [idx p1] r r' _. unfold rules_7_park. simpl.
  destruct (Park.demanding p1).
  - apply (for_each_inv add_constraints add_constraints_nil add_constraints_app).
    intros p2 t t' _ H. unfold rules_7_pair.
    destruct (Park.demanding p2).
    + bind_inv H. apply date_add_inv in E. destruct E as [-> _].
      bind_inv H. apply variables_at_inv in E. destruct E as [-> _].
      bind_inv H. apply variables_at_inv in E. destruct E as [-> _].
      bind_inv H. apply slack_at_inv in E. subst.
      bind_inv H. apply add_constraint_inv in E. destruct E as [-> _].
      bind_inv H. apply variables_at_inv in E. destruct E as [-> _].
      bind_inv H. apply variables_at_inv in E. destruct E as [-> _].
      apply add_constraint_inv in H. destruct H as [-> _].
      apply add_constraints_app.
    + inversion H; subst. now rewrite add_constraints_nil.
  - intros H. inversion H; subst. now rewrite add_constraints_nil.
Qed.

Lemma constraint_8_inv s s' :
  constraint_8 days parks companies s = Ok s' ->
  s' = add_constraints s (rules_8 days parks companies).
Proof.
  apply (for_each_inv add_constraints add_constraints_nil add_constraints_app).
  intros c q q' _.
  apply (for_each_inv add_constraints add_constraints_nil add_constraints_app).
  intros [idx p1] r r' _. unfold rules_8_park. simpl.
  destruct (String.eqb (Company.company c) (Park.company p1)).
  - apply (for_each_inv add_constraints add_constraints_nil add_constraints_app).
    intros p2 t t' _. unfold rules_8_pair.
    destruct (String.eqb (Company.company c) (Park.company p2)).
    + apply (for_each_inv add_constraints add_constraints_nil add_constraints_app).
      intros [idx2 d1] u u' _. simpl.
      apply (for_each_inv add_constraints add_constraints_nil add_constraints_app).
      intros d2 w w' _ H. unfold rules_8_days.
      destruct (d2 - d1 + 1 >? Company.number_of_days c).
      * bind_inv H. apply variables_at_inv in E. destruct E as [-> _].
        bind_inv H. apply variables_at_inv in E. destruct E as [-> _].
        bind_inv H. apply slack_at_inv in E. subst.
        bind_inv H. apply add_constraint_inv in E. destruct E as [-> _].
        bind_inv H. apply variables_at_inv in E. destruct E as [-> _].
        bind_inv H. apply variables_at_inv in E. destruct E as [-> _].
        bind_inv H. apply slack_at_inv in E. subst.
        apply add_constraint_inv in H. destruct H as [-> _].
        apply add_constraints_app.
      * inversion H; subst. now rewrite add_constraints_nil.
    + intros H. inversion H; subst. now rewrite add_constraints_nil.
  - intros H. inversion H; subst. now rewrite add_constraints_nil.
Qed.

Lemma the_objective_ok :
  the_objective days parks = Ok (penalties days parks).
Proof.
  unfold the_objective, slack_sum, penalties.
  rewrite (mapM_ok _ slack_6).
  2:{ intros p Hp. unfold slack_variables_6. now apply getitem_dicts_in. }
  simpl.
  assert (Hq : forall p1 p2 d1 d2,
    In (p1, p2, d1, d2) (all_quadruples days parks) ->
    In p1 names /\ In p2 names /\ In d1 days /\ In d2 days).
  { unfold all_quadruples. intros p1 p2 d1 d2 H.
    apply in_flat_map in H. destruct H as [a [Ha H]].
    apply in_flat_map in H. destruct H as [b [Hb H]].
    apply in_flat_map in H. destruct H as [c [Hc H]].
    apply in_map_iff in H. destruct H as [d [Hd H]].
    inversion Hd; subst. tauto. }
  rewrite (mapM_ok _ (fun q => match q with (p1, p2, d1, d2) => slack_7 p1 p2 d1 d2 end)).
  2:{ intros [[[p1 p2] d1] d2] H. apply Hq in H.
      unfold slack_variables_7. apply slack_at_in; tauto. }
  simpl.
  rewrite (mapM_ok _ (fun q => match q with (p1, p2, d1, d2) => slack_8 p1 p2 d1 d2 end)).
  2:{ intros [[[p1 p2] d1] d2] H. apply Hq in H.
      unfold slack_variables_8. apply slack_at_in; tauto. }
  reflexivity.
Qed.

(** The model that [build_model] returns, whenever it returns one *)
Lemma build_model_inv m :
  build_model days parks companies = Ok m ->
  m = mkProblem (Some (penalties days parks)) (all_rules days parks companies).
Proof.
  unfold build_model. rewrite the_objective_ok. simpl. intros H.
  bind_inv H. apply constraint_1_inv in E. subst.
  bind_inv H. apply constraint_2_inv in E. subst.
  bind_inv H. apply constraint_3_inv in E. subst.
  bind_inv H. apply constraint_4_inv in E. subst.
  bind_inv H. apply constraint_5_inv in E. subst.
  bind_inv H. apply constraint_6_inv in E. subst.
  bind_inv H. apply constraint_7_inv in E. subst.
  apply constraint_8_inv in H. subst.
  repeat rewrite add_constraints_app. reflexivity.
Qed.

End BuilderFacts.

(** ** Positions in a list: [enumerate(l[:-1])] against [l[idx+1:]] *)

Section Positions.
Context {A : Type}.

Lemma in_combine_seq (l1 r : list A) (a : A) (k : nat) :
  In ((k + List.length l1)%nat, a)
     (combine (seq k (List.length (l1 ++ a :: r))) (l1 ++ a :: r)).
Proof.
  revert k. induction l1 as [|x l1 IH]; intros k; simpl.
  - left. f_equal. lia.
  - right. replace (k + S (List.length l1))%nat
      with (S k + List.length l1)%nat by lia. apply IH.
Qed.

Lemma combine_seq_in (l : list A) (a : A) (k i : nat) :
  In (i, a) (combine (seq k (List.length l)) l) ->
  exists l1 r, l = l1 ++ a :: r /\ i = (k + List.length l1)%nat.
Proof.
  revert k. induction l as [|x l IH]; intros k; simpl; [contradiction|].
  intros [H|H].
  - inversion H; subst. exists [], l. simpl. split; [reflexivity|lia].
  - apply IH in H. destruct H as [l1 [r [-> ->]]].
    exists (x :: l1), r. simpl. split; [reflexivity|lia].
Qed.

Lemma skipn_past (l1 r : list A) :
  skipn (List.length l1) (l1 ++ r) = r.
Proof. induction l1; simpl; auto. Qed.

Lemma removelast_middle (l1 l2 l3 : list A) (a b : A) :
  removelast (l1 ++ a :: l2 ++ b :: l3) = l1 ++ a :: removelast (l2 ++ b :: l3).
Proof.
  rewrite removelast_app by discriminate. simpl.
  destruct (l2 ++ b :: l3) eqn:E; [|reflexivity].
  destruct l2; discriminate.
Qed.

(** The pairs the two nested loops visit are the pairs of positions
    [i < j] of the list. *)
Lemma pair_visited (l1 l2 l3 : list A) (a b : A) :
  In (List.length l1, a) (enumerate (removelast (l1 ++ a :: l2 ++ b :: l3))) /\
  In b (skipn (S (List.length l1)) (l1 ++ a :: l2 ++ b :: l3)).
Proof.
  split.
  - rewrite removelast_middle. unfold enumerate.
    apply (in_combine_seq l1 _ a 0).
  - replace (l1 ++ a :: l2 ++ b :: l3) with ((l1 ++ [a]) ++ l2 ++ b :: l3)
      by (rewrite <- app_assoc; reflexivity).
    replace (S (List.length l1)) with (List.length (l1 ++ [a]))
      by (rewrite length_app; simpl; lia).
    rewrite skipn_past. apply in_elt.
Qed.

Lemma visited_pair (l : list A) (i : nat) (a b : A) :
  In (i, a) (enumerate (removelast l)) -> In b (skipn (S i) l) ->
  exists l1 l2 l3, l = l1 ++ a :: l2 ++ b :: l3 /\ i = List.length l1.
Proof.
  intros Ha Hb. unfold enumerate in Ha.
  apply combine_seq_in in Ha. destruct Ha as [l1 [r [Hl Hi]]].
  simpl in Hi. subst i.
  destruct l as [|x l']; [destruct l1; discriminate|].
  assert (Hl' : exists z, x :: l' = (l1 ++ [a]) ++ r ++ [z]).
  { exists (last (x :: l') x).
    rewrite (app_removelast_last x (l := x :: l')) at 1 by discriminate.
    rewrite Hl. repeat rewrite <- app_assoc. reflexivity. }
  destruct Hl' as [z Hl']. rewrite Hl' in Hb |- *.
  replace (S (List.length l1)) with (List.length (l1 ++ [a])) in Hb
    by (rewrite length_app; simpl; lia).
  rewrite skipn_past in Hb.
  apply in_split in Hb. destruct Hb as [l2 [l3 Hs]].
  exists l1, l2, l3. split; [|reflexivity].
  rewrite Hs, <- app_assoc. reflexivity.
Qed.

Lemma in_removelast (l : list A) (a : A) : In a (removelast l) -> In a l.
Proof.
  destruct l as [|x l']; [contradiction|].
  intros H. rewrite (app_removelast_last x) by discriminate.
  apply in_or_app. now left.
Qed.
End Positions.

(** ** Which constraints the blocks 7 and 8 generate *)

Section PairRules.
Variable days : list Day.
Variable parks : list Park.t.
Variable companies : list Company.t.

Lemma in_rules_7 (nc : Named) :
  In nc (rules_7 days parks) <->
  exists d1 p1 p2,
    In d1 (removelast days) /\ precedes parks p1 p2 /\
    Park.demanding p1 = true /\ Park.demanding p2 = true /\
    In nc (consecutive (Park.name p1) (Park.name p2) d1).
Proof.
  unfold rules_7. rewrite in_flat_map. split.
  - intros [d1 [Hd H]]. apply in_flat_map in H.
    destruct H as [[i p1] [Hp1 H]]. unfold rules_7_park in H. simpl in H.
    destruct (Park.demanding p1) eqn:D1; [|contradiction].
    apply in_flat_map in H. destruct H as [p2 [Hp2 H]].
    unfold rules_7_pair in H.
    destruct (Park.demanding p2) eqn:D2; [|contradiction].
    destruct (visited_pair parks i p1 p2 Hp1 Hp2) as [l1 [l2 [l3 [Hl _]]]].
    exists d1, p1, p2. repeat split; auto. now exists l1, l2, l3.
  - intros [d1 [p1 [p2 [Hd [[l1 [l2 [l3 Hl]]] [D1 [D2 H]]]]]]].
    exists d1. split; [assumption|]. apply in_flat_map.
    exists (List.length l1, p1). subst parks.
    destruct (pair_visited l1 l2 l3 p1 p2) as [Ha Hb].
    split; [assumption|]. unfold rules_7_park. simpl. rewrite D1.
    apply in_flat_map. exists p2. split; [assumption|].
    unfold rules_7_pair. now rewrite D2.
Qed.

Lemma in_rules_8 (nc : Named) :
  In nc (rules_8 days parks companies) <->
  exists c p1 p2 d1 d2,
    In c companies /\ precedes parks p1 p2 /\
    Company.company c = Park.company p1 /\
    Company.company c = Park.company p2 /\
    precedes days d1 d2 /\
    d2 - d1 + 1 > Company.number_of_days c /\
    In nc (window (Park.name p1) (Park.name p2) d1 d2).
Proof.
  unfold rules_8. rewrite in_flat_map. split.
  - intros [c [Hc H]]. apply in_flat_map in H.
    destruct H as [[i p1] [Hp1 H]]. unfold rules_8_park in H. simpl in H.
    destruct (String.eqb (Company.company c) (Park.company p1)) eqn:C1;
      [|contradiction].
    apply in_flat_map in H. destruct H as [p2 [Hp2 H]].
    unfold rules_8_pair in H.
    destruct (String.eqb (Company.company c) (Park.company p2)) eqn:C2;
      [|contradiction].
    apply in_flat_map in H. destruct H as [[j d1] [Hd1 H]]. simpl in H.
    apply in_flat_map in H. destruct H as [d2 [Hd2 H]].
    unfold rules_8_days in H.
    destruct (d2 - d1 + 1 >? Company.number_of_days c) eqn:G; [|contradiction].
    destruct (visited_pair parks i p1 p2 Hp1 Hp2) as [l1 [l2 [l3 [Hl _]]]].
    destruct (visited_pair days j d1 d2 Hd1 Hd2) as [e1 [e2 [e3 [He _]]]].
    apply String.eqb_eq in C1, C2. apply Z.gtb_gt in G.
    exists c, p1, p2, d1, d2. repeat split; auto.
    + now exists l1, l2, l3.
    + now exists e1, e2, e3.
  - intros [c [p1 [p2 [d1 [d2 [Hc [[l1 [l2 [l3 Hl]]] [C1 [C2
             [[e1 [e2 [e3 He]]] [G H]]]]]]]]]]].
    exists c. split; [assumption|]. apply in_flat_map.
    exists (List.length l1, p1).
    destruct (pair_visited l1 l2 l3 p1 p2) as [Ha Hb].
    destruct (pair_visited e1 e2 e3 d1 d2) as [Hd1 Hd2].
    rewrite <- Hl in Ha, Hb. rewrite <- He in Hd1, Hd2.
    split; [assumption|]. unfold rules_8_park. simpl.
    apply String.eqb_eq in C1, C2. rewrite C1.
    apply in_flat_map. exists p2. split; [assumption|].
    unfold rules_8_pair. rewrite C2.
    apply in_flat_map. exists (List.length e1, d1). split; [assumption|].
    simpl. apply in_flat_map. exists d2. split; [assumption|].
    unfold rules_8_days. apply Z.gtb_gt in G. now rewrite G.
Qed.

End PairRules.

(** ** Which constraints the blocks 1 to 5 generate *)

Section SimpleRules.
Variable days : list Day.
Variable parks : list Park.t.
Variable companies : list Company.t.

Lemma in_rules_1 nc :
  In nc (rules_1 days parks) <->
  exists d, In d days /\ nc = one_park_per_day parks d.
Proof.
  unfold rules_1. rewrite in_flat_map. split.
  - intros [d [Hd [H|[]]]]. eauto.
  - intros [d [Hd ->]]. exists d. simpl. auto.
Qed.

Lemma in_rules_2 nc :
  In nc (rules_2 days parks) <->
  exists p, In p (park_names parks) /\ nc = one_day_per_park days p.
Proof.
  unfold rules_2. rewrite in_flat_map. split.
  - intros [p [Hp [H|[]]]]. eauto.
  - intros [p [Hp ->]]. exists p. simpl. auto.
Qed.

Lemma in_rules_3 nc :
  In nc (rules_3 parks) <->
  exists p d, In p parks /\ In d (Park.cannot_visit_days p) /\
              nc = cannot_visit (Park.name p) d.
Proof.
  unfold rules_3. rewrite in_flat_map. split.
  - intros [p [Hp H]]. apply in_flat_map in H.
    destruct H as [d [Hd [H|[]]]]. eauto.
  - intros [p [d [Hp [Hd ->]]]]. exists p. split; [assumption|].
    apply in_flat_map. exists d. simpl. auto.
Qed.

Lemma in_rules_4 nc :
  In nc (rules_4 parks) <->
  exists p d, In p parks /\ Park.must_visit_day p = Some d /\
              nc = must_visit (Park.name p) d.
Proof.
  unfold rules_4. rewrite in_flat_map. split.
  - intros [p [Hp H]]. destruct (Park.must_visit_day p) as [d|] eqn:E.
    + destruct H as [H|[]]. eauto.
    + contradiction.
  - intros [p [d [Hp [Hd ->]]]]. exists p. split; [assumption|].
    rewrite Hd. simpl. auto.
Qed.

Lemma in_rules_5 nc :
  In nc (rules_5 parks) <->
  exists p d, In p parks /\ In d (Park.days_to_avoid p) /\
              nc = avoid (Park.name p) d.
Proof.
  unfold rules_5. rewrite in_flat_map. split.
  - intros [p [Hp H]]. apply in_flat_map in H.
    destruct H as [d [Hd [H|[]]]]. eauto.
  - intros [p [d [Hp [Hd ->]]]]. exists p. split; [assumption|].
    apply in_flat_map. exists d. simpl. auto.
Qed.

Lemma in_all_rules nc :
  In nc (all_rules days parks companies) <->
  In nc (rules_1 days parks) \/ In nc (rules_2 days parks) \/
  In nc (rules_3 parks) \/ In nc (rules_4 parks) \/ In nc (rules_5 parks) \/
  In nc (rules_7 days parks) \/ In nc (rules_8 days parks companies).
Proof. unfold all_rules. repeat rewrite in_app_iff. tauto. Qed.

Lemma in_consecutive nc p1 p2 d1 :
  In nc (consecutive p1 p2 d1) <->
  nc = (Constraint_7 p1 p2 d1 (d1 + 1),
        not_both p1 p2 d1 (d1 + 1) (slack_7 p1 p2 d1 (d1 + 1))) \/
  nc = (Constraint_7 p1 p2 (d1 + 1) d1,
        not_both p1 p2 (d1 + 1) d1 (slack_7 p1 p2 d1 (d1 + 1))).
Proof. unfold consecutive. simpl. intuition congruence. Qed.

Lemma in_window nc p1 p2 d1 d2 :
  In nc (window p1 p2 d1 d2) <->
  nc = (Constraint_8 p1 p2 d1 d2, not_both p1 p2 d1 d2 (slack_8 p1 p2 d1 d2)) \/
  nc = (Constraint_8 p1 p2 d2 d1, not_both p1 p2 d2 d1 (slack_8 p1 p2 d2 d1)).
Proof. unfold window. simpl. intuition congruence. Qed.

(** The rule a constraint of the model belongs to is read off its name. *)
Lemma hard_rules n c :
  In (n, c) (all_rules days parks companies) -> is_hard n = true ->
  In (n, c) (rules_1 days parks) \/ In (n, c) (rules_2 days parks) \/
  In (n, c) (rules_3 parks) \/ In (n, c) (rules_4 parks) \/
  In (n, c) (rules_5 parks).
Proof.
  rewrite in_all_rules. intros H Hh.
  destruct H as [H|[H|[H|[H|[H|[H|H]]]]]]; auto.
  - apply in_rules_7 in H. destruct H as [d1 [p1 [p2 [_ [_ [_ [_ H]]]]]]].
    apply in_consecutive in H.
    destruct H as [H|H]; inversion H; subst; discriminate.
  - apply in_rules_8 in H.
    destruct H as [c0 [p1 [p2 [d1 [d2 [_ [_ [_ [_ [_ [_ H]]]]]]]]]]].
    apply in_window in H.
    destruct H as [H|H]; inversion H; subst; discriminate.
Qed.

End SimpleRules.

(** ** Rule 6: the preferred days *)

Lemma rule_vars_not_slack_6 days parks companies n c q :
  In (n, c) (all_rules days parks companies) ->
  ~ In (slack_6 q) (constraint_vars c).
Proof.
  rewrite in_all_rules. unfold constraint_vars.
  intros [H|[H|[H|[H|[H|[H|H]]]]]] Hin.
  - apply in_rules_1 in H. destruct H as [d [_ H]]. inversion H; subst.
    simpl in Hin. rewrite app_nil_r in Hin. apply in_map_iff in Hin.
    destruct Hin as [x [Hx _]]. discriminate.
  - apply in_rules_2 in H. destruct H as [p [_ H]]. inversion H; subst.
    simpl in Hin. rewrite app_nil_r in Hin. apply in_map_iff in Hin.
    destruct Hin as [x [Hx _]]. discriminate.
  - apply in_rules_3 in H. destruct H as [p [d [_ [_ H]]]]. inversion H; subst.
    simpl in Hin. intuition discriminate.
  - apply in_rules_4 in H. destruct H as [p [d [_ [_ H]]]]. inversion H; subst.
    simpl in Hin. intuition discriminate.
  - apply in_rules_5 in H. destruct H as [p [d [_ [_ H]]]]. inversion H; subst.
    simpl in Hin. intuition discriminate.
  - apply in_rules_7 in H. destruct H as [d1 [p1 [p2 [_ [_ [_ [_ H]]]]]]].
    apply in_consecutive in H.
    destruct H as [H|H]; inversion H; subst; simpl in Hin;
      intuition discriminate.
  - apply in_rules_8 in H.
    destruct H as [c0 [p1 [p2 [d1 [d2 [_ [_ [_ [_ [_ [_ H]]]]]]]]]]].
    apply in_window in H.
    destruct H as [H|H]; inversion H; subst; simpl in Hin;
      intuition discriminate.
Qed.

(** C1.  The model that the builder returns holds no constraint in which a
    preferred-day slack variable [slack_6[p]] occurs; in particular the
    preferred-day constraint
    [sum of x[p][d] over p's preferred days + slack_6[p] == 1]
    of a park is not among its constraints, under any name: block 6
    evaluates the comparison and drops it. *)
Theorem preferred_days_constraint_not_attached days parks companies m :
  build_model days parks companies = Ok m ->
  (forall n c q, In (n, c) (constraints m) ->
                 ~ In (slack_6 q) (constraint_vars c)) /\
  (forall p n, ~ In (n, preferred_days_constraint p) (constraints m)).
Proof.
  intros Hb. apply build_model_inv in Hb. subst m. simpl. split.
  - intros n c q. apply rule_vars_not_slack_6.
  - intros p n Hin.
    apply (rule_vars_not_slack_6 _ _ _ _ _ (Park.name p)) in Hin.
    apply Hin. unfold constraint_vars, preferred_days_constraint. simpl.
    rewrite app_nil_r. apply in_or_app. right. now left.
Qed.

Lemma preferred_days_constraint_not_attached_witness :
  build_model [1; 2; 3; 4] [Sample.epcot] [Sample.disney] = Ok Sample.one_park /\
  (forall n,
     ~ In (n, preferred_days_constraint Sample.epcot)
          (constraints Sample.one_park)).
Proof.
  split; [reflexivity|].
  apply (proj2 (preferred_days_constraint_not_attached
                  [1; 2; 3; 4] [Sample.epcot] [Sample.disney] Sample.one_park
                  eq_refl)).
Defined.

(** ** Rules 3 and 5: forbidden days and days to avoid *)

(** C9.  For a park [p] of the input and a day [d] of its
    [cannot_visit_days], the built model holds the constraint
    [x[p][d] == 0] under the name of rule 3, and for a day of its
    [days_to_avoid] the same constraint under the name of rule 5; both are
    hard, so an assignment that satisfies the hard constraints gives
    [x[p][d]] the value 0. *)
Theorem forbidden_and_avoided_days_are_zeroed days parks companies m p d :
  build_model days parks companies = Ok m ->
  In p parks ->
  (In d (Park.cannot_visit_days p) ->
   In (Constraint_3 (Park.name p) d, zeroed (Park.name p) d) (constraints m)) /\
  (In d (Park.days_to_avoid p) ->
   In (Constraint_5 (Park.name p) d, zeroed (Park.name p) d) (constraints m)) /\
  (In d (Park.cannot_visit_days p) \/ In d (Park.days_to_avoid p) ->
   forall v, satisfies_hard v m -> (v (park_schedule (Park.name p) d) == 0)%Q).
Proof.
  intros Hb Hp. apply build_model_inv in Hb. subst m. simpl.
  assert (H3 : In d (Park.cannot_visit_days p) ->
    In (Constraint_3 (Park.name p) d, zeroed (Park.name p) d)
       (all_rules days parks companies)).
  { intros Hd. apply in_all_rules. right. right. left.
    apply in_rules_3. exists p, d. auto. }
  assert (H5 : In d (Park.days_to_avoid p) ->
    In (Constraint_5 (Park.name p) d, zeroed (Park.name p) d)
       (all_rules days parks companies)).
  { intros Hd. apply in_all_rules. do 4 right. left.
    apply in_rules_5. exists p, d. auto. }
  repeat split; auto.
  intros [Hd|Hd] v Hv.
  - apply (Hv _ _ (H3 Hd) eq_refl).
  - apply (Hv _ _ (H5 Hd) eq_refl).
Qed.

Lemma forbidden_and_avoided_days_are_zeroed_witness :
  In (Constraint_3 "Epcot" 2, zeroed "Epcot" 2) (constraints Sample.one_park) /\
  In (Constraint_5 "Epcot" 3, zeroed "Epcot" 3) (constraints Sample.one_park).
Proof.
  split.
  - apply (forbidden_and_avoided_days_are_zeroed
             [1; 2; 3; 4] [Sample.epcot] [Sample.disney] Sample.one_park
             Sample.epcot 2 eq_refl).
    + simpl. auto.
    + simpl. auto.
  - apply (forbidden_and_avoided_days_are_zeroed
             [1; 2; 3; 4] [Sample.epcot] [Sample.disney] Sample.one_park
             Sample.epcot 3 eq_refl).
    + simpl. auto.
    + simpl. auto.
Defined.

(** ** When the builder returns and when it raises *)

Section LoopsWhen.
Context {S C : Type} (ext : S -> list C -> S) (Q : S -> list C -> Prop).
Hypothesis ext_nil : forall s, ext s [] = s.
Hypothesis ext_app : forall s a b, ext (ext s a) b = ext s (a ++ b).
Hypothesis Q_app : forall s a b, Q s (a ++ b) -> Q s a /\ Q (ext s a) b.

(** A loop whose body, where [Q] allows what it appends, either appends it
    or raises an exception in [P], does the same as a whole. *)
Lemma for_each_when {A} (l : list A) (body : A -> S -> Result S)
  (g : A -> list C) (P : Error -> Prop) :
  (forall a s, In a l -> Q s (g a) ->
     body a s = Ok (ext s (g a)) \/ exists e, body a s = Raise e /\ P e) ->
  forall s, Q s (flat_map g l) ->
    for_each l body s = Ok (ext s (flat_map g l)) \/
    exists e, for_each l body s = Raise e /\ P e.
Proof.
  induction l as [|a l IH]; simpl; intros Hb s HQ.
  - left. now rewrite ext_nil.
  - apply Q_app in HQ. destruct HQ as [Q1 Q2].
    destruct (Hb a s (or_introl eq_refl) Q1) as [E|[e [E He]]].
    + rewrite E. simpl.
      destruct (IH (fun x t Hx => Hb x t (or_intror Hx)) _ Q2)
        as [E2|[e [E2 He]]].
      * left. now rewrite E2, ext_app.
      * right. eauto.
    + right. rewrite E. simpl. eauto.
Qed.
End LoopsWhen.

Lemma for_each_invariant {A S} (I : S -> Prop) (l : list A)
  (body : A -> S -> Result S) :
  (forall a s s', In a l -> body a s = Ok s' -> I s -> I s') ->
  forall s s', for_each l body s = Ok s' -> I s -> I s'.
Proof.
  induction l as [|a l IH]; simpl; intros Hb s s' H Hs.
  - now inversion H; subst.
  - destruct (body a s) as [s1|e] eqn:E; simpl in H; [|discriminate].
    eapply IH; eauto.
Qed.

Lemma held_add_constraints s cs :
  held (add_constraints s cs)
  = held s ++ map (fun nc => pulp_name (fst nc)) cs.
Proof. unfold held, add_constraints. simpl. apply map_app. Qed.

Lemma fresh_app s a b :
  fresh_names s (a ++ b) ->
  fresh_names s a /\ fresh_names (add_constraints s a) b.
Proof.
  unfold fresh_names. rewrite held_add_constraints, map_app, app_assoc.
  intros H. split; [|assumption]. now apply NoDup_app_remove_r in H.
Qed.

Lemma add_constraint_when s n c :
  fresh_names s [(n, c)] ->
  add_constraint s n c = Ok (add_constraints s [(n, c)]).
Proof.
  unfold fresh_names. simpl. intros H. apply add_constraint_fresh.
  apply NoDup_remove_2 in H. now rewrite app_nil_r in H.
Qed.

Lemma add_constraint_keeps_names_apart s n c s' :
  add_constraint s n c = Ok s' -> NoDup (held s) -> NoDup (held s').
Proof.
  intros H Hnd. apply add_constraint_inv in H. destruct H as [-> Hn].
  rewrite held_add_constraints. simpl.
  apply NoDup_app; [assumption|repeat constructor; intros []|].
  intros x Hx [<-|[]]. contradiction.
Qed.

Lemma nodupb_sound (l : list string) : nodupb l = true -> NoDup l.
Proof.
  induction l as [|a l IH]; simpl; intros H; constructor.
  - apply andb_prop in H. destruct H as [H _]. intros Hin.
    assert (Ht : existsb (String.eqb a) l = true).
    { apply existsb_exists. exists a. split; [assumption|apply String.eqb_refl]. }
    rewrite Ht in H. discriminate.
  - apply andb_prop in H. tauto.
Qed.

Lemma for_each_ok_each {A S} (l : list A) (body : A -> S -> Result S) s s' :
  for_each l body s = Ok s' ->
  forall a, In a l -> exists s1 s2, body a s1 = Ok s2.
Proof.
  revert s. induction l as [|x l IH]; simpl; intros s H a Ha; [contradiction|].
  destruct (body x s) as [s1|e] eqn:E; simpl in H; [|discriminate].
  destruct Ha as [<-|Ha]; eauto.
Qed.

Lemma mapM_ok_each {A B} (f : A -> Result B) (l : list A) bs :
  mapM f l = Ok bs -> forall a, In a l -> exists b, f a = Ok b.
Proof.
  revert bs. induction l as [|x l IH]; simpl; intros bs H a Ha; [contradiction|].
  destruct (f x) as [b|e] eqn:E; simpl in H; [|discriminate].
  destruct (mapM f l) as [bs'|e] eqn:E'; simpl in H; [|discriminate].
  destruct Ha as [<-|Ha]; eauto.
Qed.

Lemma for_each_ok_when {A} (l : list A)
  (body : A -> LpProblem -> Result LpProblem) (g : A -> list Named) :
  (forall a s, In a l -> fresh_names s (g a) ->
     body a s = Ok (add_constraints s (g a))) ->
  forall s, fresh_names s (flat_map g l) ->
    for_each l body s = Ok (add_constraints s (flat_map g l)).
Proof.
  intros Hb s HQ.
  destruct (for_each_when add_constraints fresh_names add_constraints_nil
              add_constraints_app fresh_app l body g (fun _ => False))
    with (s := s) as [E|[e [_ []]]]; auto.
Qed.

Section Totality.
Variable days : list Day.
Variable parks : list Park.t.
Variable companies : list Company.t.

Local Abbreviation names := (park_names parks).

Lemma variables_at_raise_inv p d e :
  In p names -> variables_at days parks p d = Raise e ->
  e = KeyError (KDay d) /\ ~ In d days.
Proof.
  intros Hp H. destruct (in_dec Z.eq_dec d days) as [Hd|Hd].
  - rewrite variables_at_in in H by assumption. discriminate.
  - rewrite variables_at_notin in H by assumption. inversion H. auto.
Qed.

Lemma constraint_6_ok s :
  (forall p, In p parks -> incl (Park.preferred_days p) days) ->
  constraint_6 days parks s = Ok s.
Proof.
  intros Hk.
  assert (H : constraint_6 days parks s
              = Ok (add_constraints s (flat_map (fun _ => []) parks))).
  { apply (for_each_ok add_constraints add_constraints_nil add_constraints_app).
    intros p q Hp.
    rewrite (mapM_ok _ (park_schedule (Park.name p))).
    - simpl. unfold slack_variables_6.
      rewrite getitem_dicts_in by auto using name_in.
      simpl. now rewrite add_constraints_nil.
    - intros d Hd. apply variables_at_in; auto using name_in.
      now apply (Hk p). }
  rewrite H. f_equal. clear. induction parks; simpl; auto using add_constraints_nil.
Qed.

Lemma constraint_6_raise_inv s e :
  constraint_6 days parks s = Raise e -> absent_day days e.
Proof.
  apply for_each_raise_inv. intros p q e1 Hp H.
  destruct (mapM (fun d => variables_at days parks (Park.name p) d)
                 (Park.preferred_days p)) eqn:E; simpl in H.
  - unfold slack_variables_6 in H.
    rewrite getitem_dicts_in in H by auto using name_in. discriminate.
  - inversion H; subst. revert E. apply mapM_raise_inv.
    intros d e2 Hd E. apply variables_at_raise_inv in E; auto using name_in.
    exists d. tauto.
Qed.

(** With two demanding parks, a day other than the last whose successor is
    not a day makes block 7 raise. *)
Lemma constraint_7_raises d s :
  demanding_pair parks -> In d (removelast days) -> ~ In (d + 1) days ->
  exists e, constraint_7 days parks s = Raise e.
Proof.
  intros [p1 [p2 [[l1 [l2 [l3 Hl]]] [D1 D2]]]] Hd Hn. revert s.
  apply for_each_raise. exists d. split; [assumption|].
  apply for_each_raise. exists (List.length l1, p1).
  destruct (pair_visited l1 l2 l3 p1 p2) as [Ha Hb]. rewrite <- Hl in Ha, Hb.
  split; [assumption|]. rewrite D1.
  apply for_each_raise. exists p2. split; [assumption|]. rewrite D2.
  intros t. destruct (date_add d 1) as [d2|e] eqn:E; simpl; [|eauto].
  apply date_add_inv in E. destruct E as [-> _].
  rewrite variables_at_in; simpl.
  - rewrite variables_at_notin; simpl; eauto.
    apply name_in. rewrite Hl. apply in_or_app. right. right. apply in_elt.
  - apply name_in. rewrite Hl. apply in_elt.
  - now apply in_removelast.
Qed.

Lemma constraint_3_ok_days s s' p d :
  constraint_3 days parks s = Ok s' ->
  In p parks -> In d (Park.cannot_visit_days p) -> In d days.
Proof.
  intros H Hp Hd.
  destruct (for_each_ok_each _ _ _ _ H p Hp) as [s1 [s2 H1]].
  destruct (for_each_ok_each _ _ _ _ H1 d Hd) as [s3 [s4 H2]].
  bind_inv H2. now apply variables_at_inv in E.
Qed.

Lemma constraint_4_ok_days s s' p d :
  constraint_4 days parks s = Ok s' ->
  In p parks -> Park.must_visit_day p = Some d -> In d days.
Proof.
  intros H Hp Hd.
  destruct (for_each_ok_each _ _ _ _ H p Hp) as [s1 [s2 H1]].
  rewrite Hd in H1. bind_inv H1. now apply variables_at_inv in E.
Qed.

Lemma constraint_5_ok_days s s' p d :
  constraint_5 days parks s = Ok s' ->
  In p parks -> In d (Park.days_to_avoid p) -> In d days.
Proof.
  intros H Hp Hd.
  destruct (for_each_ok_each _ _ _ _ H p Hp) as [s1 [s2 H1]].
  destruct (for_each_ok_each _ _ _ _ H1 d Hd) as [s3 [s4 H2]].
  bind_inv H2. now apply variables_at_inv in E.
Qed.

Lemma constraint_6_ok_days s s' p d :
  constraint_6 days parks s = Ok s' ->
  In p parks -> In d (Park.preferred_days p) -> In d days.
Proof.
  intros H Hp Hd.
  destruct (for_each_ok_each _ _ _ _ H p Hp) as [s1 [s2 H1]].
  bind_inv H1.
  destruct (mapM_ok_each _ _ _ E d Hd) as [v Hv].
  now apply variables_at_inv in Hv.
Qed.

Lemma constraint_1_when s :
  fresh_names s (rules_1 days parks) ->
  constraint_1 days parks s = Ok (add_constraints s (rules_1 days parks)).
Proof.
  apply for_each_ok_when. intros d q Hd Hq.
  rewrite (mapM_ok _ (fun p => park_schedule p d))
    by (intros p Hp; now apply variables_at_in).
  simpl. now apply add_constraint_when.
Qed.

Lemma constraint_2_when s :
  fresh_names s (rules_2 days parks) ->
  constraint_2 days parks s = Ok (add_constraints s (rules_2 days parks)).
Proof.
  apply for_each_ok_when. intros p q Hp Hq.
  rewrite (mapM_ok _ (fun d => park_schedule p d))
    by (intros d Hd; now apply variables_at_in).
  simpl. now apply add_constraint_when.
Qed.

(** The body of blocks 3, 4 and 5: a lookup, then a constraint *)
Lemma lookup_then_add s p d n c :
  In p parks -> listed p d ->
  fresh_names s [(n, c (park_schedule (Park.name p) d))] ->
  (v <- variables_at days parks (Park.name p) d ;; add_constraint s n (c v))
  = Ok (add_constraints s [(n, c (park_schedule (Park.name p) d))]) \/
  exists e,
    (v <- variables_at days parks (Park.name p) d ;; add_constraint s n (c v))
    = Raise e /\ absent_listed days parks e.
Proof.
  intros Hp Hl Hq. destruct (in_dec Z.eq_dec d days) as [Hd|Hd].
  - left. rewrite variables_at_in by auto using name_in. simpl.
    now apply add_constraint_when.
  - right. rewrite variables_at_notin by auto using name_in. simpl.
    eexists. split; [reflexivity|]. exists p, d. auto.
Qed.

Lemma constraint_3_when s :
  fresh_names s (rules_3 parks) ->
  constraint_3 days parks s = Ok (add_constraints s (rules_3 parks)) \/
  exists e, constraint_3 days parks s = Raise e /\ absent_listed days parks e.
Proof.
  apply (for_each_when add_constraints fresh_names add_constraints_nil
           add_constraints_app fresh_app).
  intros p q Hp.
  apply (for_each_when add_constraints fresh_names add_constraints_nil
           add_constraints_app fresh_app).
  intros d r Hd Hq.
  apply (lookup_then_add r p d (Constraint_3 (Park.name p) d)
           (fun v => (EVar v == EConst 0)%lp)); auto.
  now left.
Qed.

Lemma constraint_4_when s :
  fresh_names s (rules_4 parks) ->
  constraint_4 days parks s = Ok (add_constraints s (rules_4 parks)) \/
  exists e, constraint_4 days parks s = Raise e /\ absent_listed days parks e.
Proof.
  apply (for_each_when add_constraints fresh_names add_constraints_nil
           add_constraints_app fresh_app).
  intros p q Hp Hq. destruct (Park.must_visit_day p) as [d|] eqn:E.
  - apply (lookup_then_add q p d (Constraint_4 (Park.name p) d)
             (fun v => (EVar v == EConst 1)%lp)); auto.
    right. now left.
  - left. now rewrite add_constraints_nil.
Qed.

Lemma constraint_5_when s :
  fresh_names s (rules_5 parks) ->
  constraint_5 days parks s = Ok (add_constraints s (rules_5 parks)) \/
  exists e, constraint_5 days parks s = Raise e /\ absent_listed days parks e.
Proof.
  apply (for_each_when add_constraints fresh_names add_constraints_nil
           add_constraints_app fresh_app).
  intros p q Hp.
  apply (for_each_when add_constraints fresh_names add_constraints_nil
           add_constraints_app fresh_app).
  intros d r Hd Hq.
  apply (lookup_then_add r p d (Constraint_5 (Park.name p) d)
           (fun v => (EVar v == EConst 0)%lp)); auto.
  right. right. now left.
Qed.

Lemma constraint_6_when s :
  constraint_6 days parks s = Ok s \/
  exists e, constraint_6 days parks s = Raise e /\ absent_listed days parks e.
Proof.
  destruct (constraint_6 days parks s) as [s'|e] eqn:E.
  - left. apply constraint_6_inv in E. now subst.
  - right. exists e. split; [reflexivity|]. revert E.
    apply (for_each_raise_inv _ _ (absent_listed days parks)).
    intros p q e1 Hp H.
    destruct (mapM (fun d => variables_at days parks (Park.name p) d)
                   (Park.preferred_days p)) eqn:Em; simpl in H.
    + unfold slack_variables_6 in H.
      rewrite getitem_dicts_in in H by auto using name_in. discriminate.
    + inversion H; subst. revert Em.
      apply (mapM_raise_inv _ (absent_listed days parks)).
      intros d e2 Hd Ev.
      apply variables_at_raise_inv in Ev; auto using name_in.
      destruct Ev as [-> Hn]. exists p, d. unfold listed. auto 10.
Qed.

(** The body of block 7 for parks [p1], [p2] and a day [d1] *)
Lemma consecutive_body_when p1 p2 d1 s :
  In p1 names -> In p2 names -> In d1 days ->
  fresh_names s (consecutive p1 p2 d1) ->
  let body :=
    d2 <- date_add d1 1 ;;
    a <- variables_at days parks p1 d1 ;;
    b <- variables_at days parks p2 d2 ;;
    s7 <- slack_at (slack_variables_7 days parks) p1 p2 d1 d2 ;;
    problem <-
      add_constraint s (Constraint_7 p1 p2 d1 d2)
        (EAdd (EVar a) (EVar b) <= EAdd (EConst 1) (EVar s7))%lp ;;
    a' <- variables_at days parks p1 d2 ;;
    b' <- variables_at days parks p2 d1 ;;
    s7' <- slack_at (slack_variables_7 days parks) p1 p2 d1 d2 ;;
    add_constraint problem (Constraint_7 p1 p2 d2 d1)
      (EAdd (EVar a') (EVar b') <= EAdd (EConst 1) (EVar s7'))%lp in
  body = Ok (add_constraints s (consecutive p1 p2 d1)) \/
  (~ valid_date (d1 + 1) /\ body = Raise OverflowError) \/
  (~ In (d1 + 1) days /\ body = Raise (KeyError (KDay (d1 + 1)))).
Proof.
  intros H1 H2 Hd Hq body. subst body.
  destruct (date_add d1 1) as [d2|e] eqn:Ea.
  - apply date_add_inv in Ea. destruct Ea as [-> _]. simpl.
    rewrite variables_at_in by assumption. simpl.
    destruct (in_dec Z.eq_dec (d1 + 1) days) as [Hd'|Hd'].
    + left. change (consecutive p1 p2 d1)
        with ([(Constraint_7 p1 p2 d1 (d1 + 1),
                not_both p1 p2 d1 (d1 + 1) (slack_7 p1 p2 d1 (d1 + 1)))]
              ++ [(Constraint_7 p1 p2 (d1 + 1) d1,
                   not_both p1 p2 (d1 + 1) d1 (slack_7 p1 p2 d1 (d1 + 1)))])
        in Hq |- *.
      apply fresh_app in Hq. destruct Hq as [Q1 Q2]. unfold not_both in Q1, Q2.
      rewrite variables_at_in by assumption. simpl.
      unfold slack_variables_7. rewrite slack_at_in by assumption. simpl.
      rewrite (add_constraint_when _ _ _ Q1). simpl.
      repeat (rewrite variables_at_in by assumption; simpl).
      rewrite (add_constraint_when _ _ _ Q2).
      now rewrite add_constraints_app.
    + right. right. rewrite variables_at_notin by assumption. auto.
  - right. left. simpl. split.
    + intros Hv. rewrite date_add_ok in Ea by assumption. discriminate.
    + unfold date_add in Ea.
      destruct ((0 <? d1 + 1) && (d1 + 1 <=? MAXORDINAL)); [discriminate|].
      now inversion Ea.
Qed.

Lemma constraint_7_when s :
  fresh_names s (rules_7 days parks) ->
  constraint_7 days parks s = Ok (add_constraints s (rules_7 days parks)) \/
  exists e, constraint_7 days parks s = Raise e /\
            successor_failure days parks e.
Proof.
  apply (for_each_when add_constraints fresh_names add_constraints_nil
           add_constraints_app fresh_app).
  intros d1 q Hd1.
  apply (for_each_when add_constraints fresh_names add_constraints_nil
           add_constraints_app fresh_app).
  intros [idx p1] r Hp1. unfold rules_7_park. simpl.
  destruct (Park.demanding p1) eqn:D1;
    [|intros _; left; now rewrite add_constraints_nil].
  apply (for_each_when add_constraints fresh_names add_constraints_nil
           add_constraints_app fresh_app).
  intros p2 t Hp2. unfold rules_7_pair.
  destruct (Park.demanding p2) eqn:D2;
    [|intros _; left; now rewrite add_constraints_nil].
  intros Hq.
  destruct (visited_pair parks idx p1 p2 Hp1 Hp2) as [l1 [l2 [l3 [Hl _]]]].
  assert (N1 : In (Park.name p1) names).
  { apply name_in. rewrite Hl. apply in_elt. }
  assert (N2 : In (Park.name p2) names).
  { apply name_in. rewrite Hl. apply in_or_app. right. right. apply in_elt. }
  assert (Hdp : demanding_pair parks).
  { exists p1, p2. repeat split; auto. now exists l1, l2, l3. }
  destruct (consecutive_body_when (Park.name p1) (Park.name p2) d1 t
              N1 N2 (in_removelast _ _ Hd1) Hq) as [E|[[Hv E]|[Hn E]]].
  - left. exact E.
  - right. exists OverflowError. split; [exact E|].
    split; [assumption|]. exists d1. auto.
  - right. exists (KeyError (KDay (d1 + 1))). split; [exact E|].
    split; [assumption|]. exists d1. auto.
Qed.

Lemma window_body_when p1 p2 d1 d2 s :
  In p1 names -> In p2 names -> In d1 days -> In d2 days ->
  fresh_names s (window p1 p2 d1 d2) ->
  (a <- variables_at days parks p1 d1 ;;
   b <- variables_at days parks p2 d2 ;;
   s8 <- slack_at (slack_variables_8 days parks) p1 p2 d1 d2 ;;
   problem <-
     add_constraint s (Constraint_8 p1 p2 d1 d2)
       (EAdd (EVar a) (EVar b) <= EAdd (EConst 1) (EVar s8))%lp ;;
   a' <- variables_at days parks p1 d2 ;;
   b' <- variables_at days parks p2 d1 ;;
   s8' <- slack_at (slack_variables_8 days parks) p1 p2 d2 d1 ;;
   add_constraint problem (Constraint_8 p1 p2 d2 d1)
     (EAdd (EVar a') (EVar b') <= EAdd (EConst 1) (EVar s8'))%lp)
  = Ok (add_constraints s (window p1 p2 d1 d2)).
Proof.
  intros H1 H2 Hd Hd' Hq.
  change (window p1 p2 d1 d2)
    with ([(Constraint_8 p1 p2 d1 d2,
            not_both p1 p2 d1 d2 (slack_8 p1 p2 d1 d2))]
          ++ [(Constraint_8 p1 p2 d2 d1,
               not_both p1 p2 d2 d1 (slack_8 p1 p2 d2 d1))]) in Hq |- *.
  apply fresh_app in Hq. destruct Hq as [Q1 Q2]. unfold not_both in Q1, Q2.
  repeat (rewrite variables_at_in by assumption; simpl).
  unfold slack_variables_8. rewrite slack_at_in by assumption. simpl.
  rewrite (add_constraint_when _ _ _ Q1). simpl.
  repeat (rewrite variables_at_in by assumption; simpl).
  rewrite slack_at_in by assumption. simpl.
  rewrite (add_constraint_when _ _ _ Q2).
  now rewrite add_constraints_app.
Qed.

Lemma constraint_8_when s :
  fresh_names s (rules_8 days parks companies) ->
  constraint_8 days parks companies s
  = Ok (add_constraints s (rules_8 days parks companies)).
Proof.
  apply for_each_ok_when. intros c q Hc.
  apply for_each_ok_when. intros [idx p1] r Hp1. unfold rules_8_park. simpl.
  destruct (String.eqb (Company.company c) (Park.company p1));
    [|intros _; now rewrite add_constraints_nil].
  apply for_each_ok_when. intros p2 t Hp2. unfold rules_8_pair.
  destruct (String.eqb (Company.company c) (Park.company p2));
    [|intros _; now rewrite add_constraints_nil].
  apply for_each_ok_when. intros [idx2 d1] u Hd1. simpl.
  apply for_each_ok_when. intros d2 w Hd2. unfold rules_8_days.
  destruct (d2 - d1 + 1 >? Company.number_of_days c);
    [|intros _; now rewrite add_constraints_nil].
  destruct (visited_pair parks idx p1 p2 Hp1 Hp2) as [l1 [l2 [l3 [Hl _]]]].
  destruct (visited_pair days idx2 d1 d2 Hd1 Hd2) as [e1 [e2 [e3 [He _]]]].
  apply window_body_when.
  - apply name_in. rewrite Hl. apply in_elt.
  - apply name_in. rewrite Hl. apply in_or_app. right. right. apply in_elt.
  - rewrite He. apply in_elt.
  - rewrite He. apply in_or_app. right. right. apply in_elt.
Qed.

(** When no two constraint names coincide, the builder returns the model
    of all the rules unless a lookup fails. *)
Lemma build_model_when :
  names_distinct days parks companies ->
  build_model days parks companies
  = Ok (mkProblem (Some (penalties days parks))
                  (all_rules days parks companies)) \/
  exists e, build_model days parks companies = Raise e /\
            lookup_failure days parks e.
Proof.
  intros Hnd. unfold build_model. rewrite the_objective_ok. simpl.
  set (s0 := set_objective LpProblem_new (penalties days parks)).
  assert (H0 : fresh_names s0 (all_rules days parks companies)) by exact Hnd.
  unfold all_rules in H0.
  apply fresh_app in H0. destruct H0 as [Q1 H0].
  apply fresh_app in H0. destruct H0 as [Q2 H0].
  apply fresh_app in H0. destruct H0 as [Q3 H0].
  apply fresh_app in H0. destruct H0 as [Q4 H0].
  apply fresh_app in H0. destruct H0 as [Q5 H0].
  apply fresh_app in H0. destruct H0 as [Q7 Q8].
  rewrite (constraint_1_when _ Q1). simpl.
  rewrite (constraint_2_when _ Q2). simpl.
  destruct (constraint_3_when _ Q3) as [E3|[e [E3 He]]]; rewrite E3; simpl;
    [|right; exists e; split; [reflexivity|now left]].
  destruct (constraint_4_when _ Q4) as [E4|[e [E4 He]]]; rewrite E4; simpl;
    [|right; exists e; split; [reflexivity|now left]].
  destruct (constraint_5_when _ Q5) as [E5|[e [E5 He]]]; rewrite E5; simpl;
    [|right; exists e; split; [reflexivity|now left]].
  match goal with
  | |- context [constraint_6 days parks ?s] =>
      destruct (constraint_6_when s) as [E6|[e [E6 He]]]; rewrite E6; simpl;
        [|right; exists e; split; [reflexivity|now left]]
  end.
  assert (Hk : forall p, In p parks -> days_known days p).
  { intros p Hp. repeat split; intros d Hd.
    - eapply constraint_3_ok_days; eauto.
    - eapply constraint_4_ok_days; eauto.
    - eapply constraint_5_ok_days; eauto.
    - eapply constraint_6_ok_days; eauto. }
  destruct (constraint_7_when _ Q7) as [E7|[e [E7 He]]]; rewrite E7; simpl;
    [|right; exists e; split; [reflexivity|right; auto]].
  rewrite (constraint_8_when _ Q8). left.
  unfold s0, set_objective, add_constraints. simpl.
  repeat rewrite <- app_assoc. reflexivity.
Qed.

Lemma build_model_ok :
  Forall valid_date days ->
  (forall p, In p parks -> days_known days p) ->
  (demanding_pair parks -> successors_known days) ->
  names_distinct days parks companies ->
  build_model days parks companies
  = Ok (mkProblem (Some (penalties days parks))
                  (all_rules days parks companies)).
Proof.
  intros Hv Hk Hs Hnd.
  destruct (build_model_when Hnd) as [E|[e [E [Ha|[_ Hf]]]]]; [exact E| |];
    exfalso.
  - destruct Ha as [p [d [Hp [Hl [Hn _]]]]]. apply Hn.
    destruct (Hk p Hp) as [K3 [K4 [K5 K6]]].
    destruct Hl as [H|[H|[H|H]]]; auto.
  - destruct Hf as [Hp [d [Hd [[Hn _]|[Hn _]]]]].
    + apply Hn. rewrite Forall_forall in Hv. apply Hv. now apply Hs.
    + apply Hn. now apply Hs.
Qed.

(** A model is returned only if block 7 found every successor it looked up. *)
Lemma build_model_successors m :
  build_model days parks companies = Ok m ->
  demanding_pair parks -> successors_known days.
Proof.
  unfold build_model. rewrite the_objective_ok. simpl. intros H Hp d Hd.
  destruct (in_dec Z.eq_dec (d + 1) days) as [Hin|Hn]; [assumption|].
  exfalso.
  bind_inv H. bind_inv H. bind_inv H. bind_inv H. bind_inv H. bind_inv H.
  destruct (constraint_7_raises d a4 Hp Hd Hn) as [e He].
  rewrite He in H. discriminate.
Qed.

Lemma build_model_days_known m p :
  build_model days parks companies = Ok m -> In p parks -> days_known days p.
Proof.
  unfold build_model. rewrite the_objective_ok. simpl. intros H Hp.
  bind_inv H. bind_inv H. bind_inv H. bind_inv H. bind_inv H. bind_inv H.
  repeat split.
  - intros d Hd. eapply constraint_3_ok_days; eauto.
  - intros d Hd. eapply constraint_4_ok_days; eauto.
  - intros d Hd. eapply constraint_5_ok_days; eauto.
  - intros d Hd. eapply constraint_6_ok_days; eauto.
Qed.


End Totality.

(** ** Days and their successors *)

Lemma list_upper_bound (l : list Z) : exists M, forall x, In x l -> x <= M.
Proof.
  induction l as [|a l [M HM]].
  - exists 0. intros x [].
  - exists (Z.max a M). intros x [->|Hx]; [lia|].
    apply HM in Hx. lia.
Qed.

Lemma in_removelast_or_last (l : list Z) (x : Z) :
  In x l -> In x (removelast l) \/ x = last l 0.
Proof.
  intros Hx. destruct l as [|a l']; [contradiction|].
  rewrite (app_removelast_last 0 (l := a :: l')) in Hx by discriminate.
  apply in_app_or in Hx. destruct Hx as [Hx|[Hx|[]]]; auto.
Qed.

(** A list of days in which every day but the last has its successor holds
    a day and its successor only if the day is not the last one. *)
Lemma successor_not_last (days : list Day) (d : Day) :
  successors_known days -> In d days -> In (d + 1) days ->
  In d (removelast days).
Proof.
  intros Hs Hd Hd'.
  destruct (in_dec Z.eq_dec d (removelast days)) as [Hin|Hn]; [assumption|].
  exfalso.
  assert (Hlast : d = last days 0).
  { destruct (in_removelast_or_last days d Hd); tauto. }
  assert (Hother : forall x, In x days -> x <> d -> In x (removelast days)).
  { intros x Hx Hne. destruct (in_removelast_or_last days x Hx) as [H|H]; [assumption|].
    exfalso. apply Hne. transitivity (last days 0);
      [exact H | symmetry; exact Hlast]. }
  assert (Hall : forall k : nat, In (d + 1 + Z.of_nat k) (removelast days)).
  { induction k as [|k IH].
    - apply Hother; [|lia]. now rewrite Z.add_0_r.
    - apply Hother; [|lia]. apply Hs in IH.
      replace (d + 1 + Z.of_nat (S k)) with (d + 1 + Z.of_nat k + 1) by lia.
      assumption. }
  destruct (list_upper_bound days) as [M HM].
  specialize (Hall (Z.to_nat (M - d))).
  apply in_removelast in Hall. apply HM in Hall. lia.
Qed.

Lemma sorted_removelast_lt (l : list Z) (d : Z) :
  StronglySorted Z.lt l -> In d (removelast l) -> exists x, In x l /\ d < x.
Proof.
  induction 1 as [|a l' Hs IH Hf]; [contradiction|].
  destruct l' as [|b l'']; [contradiction|].
  change (removelast (a :: b :: l'')) with (a :: removelast (b :: l'')).
  intros [->|Hin].
  - exists b. split; [simpl; auto|]. inversion Hf; assumption.
  - destruct (IH Hin) as [x [Hx Hlt]]. exists x. split; [now right|assumption].
Qed.

Lemma sorted_precedes_lt (l : list Z) (a b : Z) :
  StronglySorted Z.lt l -> precedes l a b -> a < b.
Proof.
  intros Hs [l1 [l2 [l3 Hl]]]. subst l.
  induction l1 as [|x l1 IH]; simpl in Hs.
  - inversion Hs as [|? ? _ Hf]; subst. rewrite Forall_forall in Hf.
    apply Hf. apply in_elt.
  - inversion Hs; auto.
Qed.

Lemma sorted_lt_precedes (l : list Z) (a b : Z) :
  StronglySorted Z.lt l -> In a l -> In b l -> a < b -> precedes l a b.
Proof.
  intros Hs Ha Hb Hlt. apply in_split in Ha. destruct Ha as [l1 [r Hl]].
  subst l. apply in_app_or in Hb. destruct Hb as [Hb|[Hb|Hb]].
  - exfalso. apply in_split in Hb. destruct Hb as [e1 [e2 He]]. subst l1.
    assert (Hp : precedes ((e1 ++ b :: e2) ++ a :: r) b a).
    { exists e1, e2, r. now rewrite <- app_assoc. }
    apply (sorted_precedes_lt _ _ _ Hs) in Hp. lia.
  - lia.
  - apply in_split in Hb. destruct Hb as [e1 [e2 He]]. subst r.
    now exists l1, e1, e2.
Qed.

(** ** Rule 7: demanding parks on consecutive days *)

Lemma rule_7_origin days parks companies n c :
  In (n, c) (all_rules days parks companies) ->
  is_rule_7 n = true \/ mentions_slack_7 c ->
  In (n, c) (rules_7 days parks).
Proof.
  rewrite in_all_rules. unfold mentions_slack_7, constraint_vars.
  intros [H|[H|[H|[H|[H|[H|H]]]]]] Hor; [| | | | |assumption|]; exfalso.
  - apply in_rules_1 in H. destruct H as [d [_ H]]. inversion H; subst.
    destruct Hor as [Hn|[a [b [x [y Hin]]]]]; [discriminate|].
    simpl in Hin. rewrite app_nil_r in Hin. apply in_map_iff in Hin.
    destruct Hin as [z [Hz _]]. discriminate.
  - apply in_rules_2 in H. destruct H as [p [_ H]]. inversion H; subst.
    destruct Hor as [Hn|[a [b [x [y Hin]]]]]; [discriminate|].
    simpl in Hin. rewrite app_nil_r in Hin. apply in_map_iff in Hin.
    destruct Hin as [z [Hz _]]. discriminate.
  - apply in_rules_3 in H. destruct H as [p [d [_ [_ H]]]]. inversion H; subst.
    destruct Hor as [Hn|[a [b [x [y Hin]]]]]; [discriminate|].
    simpl in Hin. intuition discriminate.
  - apply in_rules_4 in H. destruct H as [p [d [_ [_ H]]]]. inversion H; subst.
    destruct Hor as [Hn|[a [b [x [y Hin]]]]]; [discriminate|].
    simpl in Hin. intuition discriminate.
  - apply in_rules_5 in H. destruct H as [p [d [_ [_ H]]]]. inversion H; subst.
    destruct Hor as [Hn|[a [b [x [y Hin]]]]]; [discriminate|].
    simpl in Hin. intuition discriminate.
  - apply in_rules_8 in H.
    destruct H as [c0 [p1 [p2 [d1 [d2 [_ [_ [_ [_ [_ [_ H]]]]]]]]]]].
    apply in_window in H.
    destruct H as [H|H]; inversion H; subst;
      (destruct Hor as [Hn|[a [b [x [y Hin]]]]]; [discriminate|]);
      simpl in Hin; intuition discriminate.
Qed.

(** C7.  In the built model, for two demanding parks [p1] before [p2] in
    the list of parks and days [d1], [d1 + 1] of the trip, both constraints
    [x[p1][d1] + x[p2][d1+1] <= 1 + slack_7[p1][p2][d1][d1+1]] and
    [x[p1][d1+1] + x[p2][d1] <= 1 + slack_7[p1][p2][d1][d1+1]] are present;
    and every constraint that carries the name of rule 7 or mentions a
    [slack_7] variable is one of these two for such a pair of demanding
    parks and such a pair of consecutive days. *)
Theorem consecutive_demanding_constraints days parks companies m :
  build_model days parks companies = Ok m ->
  (forall p1 p2 d1,
     precedes parks p1 p2 ->
     Park.demanding p1 = true -> Park.demanding p2 = true ->
     In d1 days -> In (d1 + 1) days ->
     let n1 := Park.name p1 in
     let n2 := Park.name p2 in
     In (Constraint_7 n1 n2 d1 (d1 + 1),
         not_both n1 n2 d1 (d1 + 1) (slack_7 n1 n2 d1 (d1 + 1)))
        (constraints m) /\
     In (Constraint_7 n1 n2 (d1 + 1) d1,
         not_both n1 n2 (d1 + 1) d1 (slack_7 n1 n2 d1 (d1 + 1)))
        (constraints m)) /\
  (forall n c,
     In (n, c) (constraints m) ->
     is_rule_7 n = true \/ mentions_slack_7 c ->
     exists p1 p2 d1,
       precedes parks p1 p2 /\
       Park.demanding p1 = true /\ Park.demanding p2 = true /\
       In d1 days /\ In (d1 + 1) days /\
       In (n, c) (consecutive (Park.name p1) (Park.name p2) d1)).
Proof.
  intros Hb. pose proof (build_model_successors _ _ _ _ Hb) as Hs.
  apply build_model_inv in Hb. subst m. simpl. split.
  - intros p1 p2 d1 Hp D1 D2 Hd Hd'.
    assert (Hdp : demanding_pair parks) by (exists p1, p2; auto).
    assert (Hr : In d1 (removelast days))
      by (apply successor_not_last; auto).
    split; apply in_all_rules; do 5 right; left; apply in_rules_7;
      exists d1, p1, p2; repeat split; auto; apply in_consecutive; auto.
  - intros n c Hin Hor. apply rule_7_origin in Hin; [|assumption].
    apply in_rules_7 in Hin.
    destruct Hin as [d1 [p1 [p2 [Hd [Hp [D1 [D2 Hc]]]]]]].
    exists p1, p2, d1. repeat split; auto using in_removelast.
    apply Hs; [|assumption]. exists p1, p2. auto.
Qed.

Lemma consecutive_demanding_constraints_witness :
  In (Constraint_7 "Epcot" "Magic Kingdom" 2 3,
      not_both "Epcot" "Magic Kingdom" 2 3
        (slack_7 "Epcot" "Magic Kingdom" 2 3))
     (constraints Sample2.three_parks) /\
  In (Constraint_7 "Epcot" "Magic Kingdom" 3 2,
      not_both "Epcot" "Magic Kingdom" 3 2
        (slack_7 "Epcot" "Magic Kingdom" 2 3))
     (constraints Sample2.three_parks).
Proof.
  apply (proj1 (consecutive_demanding_constraints
                  [1; 2; 3; 4]
                  [Sample.epcot; Sample.aquatica; Sample.kingdom]
                  [Sample.disney; Sample.sea_world]
                  Sample2.three_parks eq_refl)
           Sample.epcot Sample.kingdom 2).
  - exists [], [Sample.aquatica], []. reflexivity.
  - reflexivity.
  - reflexivity.
  - simpl. auto.
  - simpl. auto.
Defined.

(** ** Rule 8: the parks of a company within its number of days *)

Lemma NoDup_map_inj {A B} (f : A -> B) (l : list A) (a b : A) :
  NoDup (map f l) -> In a l -> In b l -> f a = f b -> a = b.
Proof.
  induction l as [|x l IH]; simpl; [contradiction|].
  intros Hnd Ha Hb Hf. inversion Hnd as [|? ? Hx Hnd']; subst.
  destruct Ha as [->|Ha]; destruct Hb as [->|Hb]; auto.
  - exfalso. apply Hx. rewrite Hf. now apply in_map.
  - exfalso. apply Hx. rewrite <- Hf. now apply in_map.
Qed.

Lemma precedes_in {A} (l : list A) (a b : A) :
  precedes l a b -> In a l /\ In b l.
Proof.
  intros [l1 [l2 [l3 ->]]]. split.
  - apply in_elt.
  - apply in_or_app. right. right. apply in_elt.
Qed.

Lemma rule_8_origin days parks companies n c :
  In (n, c) (all_rules days parks companies) ->
  is_rule_8 n = true \/ mentions_slack_8 c ->
  In (n, c) (rules_8 days parks companies).
Proof.
  rewrite in_all_rules. unfold mentions_slack_8, constraint_vars.
  intros [H|[H|[H|[H|[H|[H|H]]]]]] Hor; [| | | | | |assumption]; exfalso.
  - apply in_rules_1 in H. destruct H as [d [_ H]]. inversion H; subst.
    destruct Hor as [Hn|[a [b [x [y Hin]]]]]; [discriminate|].
    simpl in Hin. rewrite app_nil_r in Hin. apply in_map_iff in Hin.
    destruct Hin as [z [Hz _]]. discriminate.
  - apply in_rules_2 in H. destruct H as [p [_ H]]. inversion H; subst.
    destruct Hor as [Hn|[a [b [x [y Hin]]]]]; [discriminate|].
    simpl in Hin. rewrite app_nil_r in Hin. apply in_map_iff in Hin.
    destruct Hin as [z [Hz _]]. discriminate.
  - apply in_rules_3 in H. destruct H as [p [d [_ [_ H]]]]. inversion H; subst.
    destruct Hor as [Hn|[a [b [x [y Hin]]]]]; [discriminate|].
    simpl in Hin. intuition discriminate.
  - apply in_rules_4 in H. destruct H as [p [d [_ [_ H]]]]. inversion H; subst.
    destruct Hor as [Hn|[a [b [x [y Hin]]]]]; [discriminate|].
    simpl in Hin. intuition discriminate.
  - apply in_rules_5 in H. destruct H as [p [d [_ [_ H]]]]. inversion H; subst.
    destruct Hor as [Hn|[a [b [x [y Hin]]]]]; [discriminate|].
    simpl in Hin. intuition discriminate.
  - apply in_rules_7 in H. destruct H as [d1 [p1 [p2 [_ [_ [_ [_ H]]]]]]].
    apply in_consecutive in H.
    destruct H as [H|H]; inversion H; subst;
      (destruct Hor as [Hn|[a [b [x [y Hin]]]]]; [discriminate|]);
      simpl in Hin; intuition discriminate.
Qed.

(** C8.  On a trip whose days are strictly increasing, with parks and
    companies each known by a unique name, take a company [c] of the input,
    two of its parks [p1] before [p2] and two days [d1 < d2].  If
    [d2 - d1 + 1] exceeds the company's [number_of_days], the built model
    holds [x[p1][d1] + x[p2][d2] <= 1 + slack_8[p1][p2][d1][d2]] and
    [x[p1][d2] + x[p2][d1] <= 1 + slack_8[p1][p2][d2][d1]]; otherwise it
    holds no constraint that bears the name of rule 8 for these parks and
    days or mentions one of these two slack variables. *)
Theorem company_window_constraints days parks companies m c p1 p2 d1 d2 :
  build_model days parks companies = Ok m ->
  StronglySorted Z.lt days ->
  NoDup (park_names parks) ->
  NoDup (map Company.company companies) ->
  In c companies ->
  precedes parks p1 p2 ->
  Park.company p1 = Company.company c ->
  Park.company p2 = Company.company c ->
  In d1 days -> In d2 days -> d1 < d2 ->
  let n1 := Park.name p1 in
  let n2 := Park.name p2 in
  (d2 - d1 + 1 > Company.number_of_days c ->
   In (Constraint_8 n1 n2 d1 d2, not_both n1 n2 d1 d2 (slack_8 n1 n2 d1 d2))
      (constraints m) /\
   In (Constraint_8 n1 n2 d2 d1, not_both n1 n2 d2 d1 (slack_8 n1 n2 d2 d1))
      (constraints m)) /\
  (d2 - d1 + 1 <= Company.number_of_days c ->
   forall n k,
     In (n, k) (constraints m) ->
     ~ (n = Constraint_8 n1 n2 d1 d2 \/ n = Constraint_8 n1 n2 d2 d1 \/
        In (slack_8 n1 n2 d1 d2) (constraint_vars k) \/
        In (slack_8 n1 n2 d2 d1) (constraint_vars k))).
Proof.
  intros Hb Hs Hnp Hnc Hc Hp C1 C2 Hd1 Hd2 Hlt n1 n2.
  apply build_model_inv in Hb. subst m. simpl. split.
  - intros Hgt.
    assert (Hd : precedes days d1 d2) by now apply sorted_lt_precedes.
    split; apply in_all_rules; do 6 right; apply in_rules_8;
      exists c, p1, p2, d1, d2; repeat split; auto; apply in_window; auto.
  - intros Hle n k Hin Hor.
    assert (Hin8 : In (n, k) (rules_8 days parks companies)).
    { apply rule_8_origin; [assumption|].
      destruct Hor as [->|[->|[H|H]]]; [left; reflexivity|left; reflexivity| |];
        right; [exists n1, n2, d1, d2|exists n1, n2, d2, d1]; assumption. }
    apply in_rules_8 in Hin8.
    destruct Hin8 as [c' [q1 [q2 [e1 [e2 [Hc' [Hq [K1 [K2 [He [Hgt Hw]]]]]]]]]]].
    apply (sorted_precedes_lt _ _ _ Hs) in He.
    destruct (precedes_in _ _ _ Hp) as [Hp1 Hp2].
    destruct (precedes_in _ _ _ Hq) as [Hq1 Hq2].
    assert (Hsame : Park.name q1 = n1 -> e1 = d1 -> e2 = d2 -> False).
    { intros Hn -> ->.
      assert (q1 = p1) by (apply (NoDup_map_inj Park.name parks); auto).
      subst q1.
      assert (c' = c).
      { apply (NoDup_map_inj Company.company companies); auto. congruence. }
      subst c'. lia. }
    apply in_window in Hw. unfold constraint_vars, not_both in *.
    destruct Hw as [Hw|Hw]; inversion Hw; subst n k; simpl in Hor;
      destruct Hor as [Hor|[Hor|[Hor|Hor]]];
      repeat match goal with
             | H : _ \/ _ |- _ => destruct H
             | H : False |- _ => destruct H
             | H : park_schedule _ _ = slack_8 _ _ _ _ |- _ => discriminate H
             | H : slack_8 _ _ _ _ = slack_8 _ _ _ _ |- _ =>
                 inversion H; clear H
             | H : Constraint_8 _ _ _ _ = Constraint_8 _ _ _ _ |- _ =>
                 inversion H; clear H
             end;
      first [ lia | apply Hsame; congruence ].
Qed.

Lemma company_window_constraints_witness :
  In (Constraint_8 "Universal Studios" "Islands of Adventure" 1 3,
      not_both "Universal Studios" "Islands of Adventure" 1 3
        (slack_8 "Universal Studios" "Islands of Adventure" 1 3))
     (constraints Sample3.universal_parks) /\
  In (Constraint_8 "Universal Studios" "Islands of Adventure" 3 1,
      not_both "Universal Studios" "Islands of Adventure" 3 1
        (slack_8 "Universal Studios" "Islands of Adventure" 3 1))
     (constraints Sample3.universal_parks).
Proof.
  apply (company_window_constraints
           [1; 2; 3; 4] [Sample3.universal; Sample3.islands]
           [Sample3.universal_co] Sample3.universal_parks
           Sample3.universal_co Sample3.universal Sample3.islands 1 3 eq_refl).
  - repeat constructor; lia.
  - repeat constructor; simpl; intuition discriminate.
  - repeat constructor; simpl; intuition discriminate.
  - simpl. auto.
  - exists [], [], []. reflexivity.
  - reflexivity.
  - reflexivity.
  - simpl. auto.
  - simpl. auto.
  - lia.
  - simpl. lia.
Defined.

(** ** Days that are not contiguous *)

Lemma names_distinct_check days parks companies :
  nodupb (map (fun nc => pulp_name (fst nc)) (all_rules days parks companies))
  = true ->
  names_distinct days parks companies.
Proof. apply nodupb_sound. Qed.

(** C10, as the code has it.  On calendar dates in strictly increasing
    order, with two demanding parks, a day other than the last whose
    successor is not a day of the trip, and constraint names that PuLP
    keeps apart, the builder returns no model: it raises [KeyError] for a
    day that is not in [days]; and when every day the parks list is a day
    of the trip, the key is the successor [d + 1] of such a day [d], looked
    up by block 7. *)
Theorem noncontiguous_days_raise_KeyError days parks companies :
  Forall valid_date days ->
  StronglySorted Z.lt days ->
  demanding_pair parks ->
  (exists d, In d (removelast days) /\ ~ In (d + 1) days) ->
  names_distinct days parks companies ->
  (exists k, ~ In k days /\
             build_model days parks companies = Raise (KeyError (KDay k))) /\
  ((forall p, In p parks -> days_known days p) ->
   exists d, In d (removelast days) /\ ~ In (d + 1) days /\
             build_model days parks companies
             = Raise (KeyError (KDay (d + 1)))).
Proof.
  intros Hv Hs Hp [d [Hd Hn]] Hnd.
  assert (Hv' : forall x, In x (removelast days) -> valid_date (x + 1)).
  { intros x Hx. rewrite Forall_forall in Hv.
    destruct (sorted_removelast_lt _ _ Hs Hx) as [y [Hy Hlt]].
    apply in_removelast in Hx. apply Hv in Hx. apply Hv in Hy.
    unfold valid_date in *. lia. }
  destruct (build_model_when days parks companies Hnd) as [E|[e [E Hf]]].
  { exfalso. apply Hn.
    now apply (build_model_successors _ _ _ _ E Hp). }
  assert (H7 : successor_failure days parks e ->
    exists x, In x (removelast days) /\ ~ In (x + 1) days /\
              e = KeyError (KDay (x + 1))).
  { intros [_ [x [Hx [[Hnv _]|[Hnx ->]]]]]; [|eauto].
    exfalso. apply Hnv. auto. }
  split.
  - destruct Hf as [[p [x [_ [_ [Hx ->]]]]]|[_ Hf]]; [eauto|].
    destruct (H7 Hf) as [x [_ [Hnx ->]]]. eauto.
  - intros Hk. destruct Hf as [[p [x [Hq [Hl [Hx _]]]]]|[_ Hf]].
    + exfalso. apply Hx. destruct (Hk p Hq) as [K3 [K4 [K5 K6]]].
      destruct Hl as [H|[H|[H|H]]]; auto.
    + destruct (H7 Hf) as [x [Hx [Hnx ->]]]. eauto.
Qed.

Lemma noncontiguous_days_raise_KeyError_witness :
  exists d, In d (removelast [1; 2; 4]) /\ ~ In (d + 1) [1; 2; 4] /\
    build_model [1; 2; 4] [Sample3.universal; Sample3.islands]
                [Sample3.universal_co]
    = Raise (KeyError (KDay (d + 1))).
Proof.
  apply (proj2 (noncontiguous_days_raise_KeyError
                  [1; 2; 4] [Sample3.universal; Sample3.islands]
                  [Sample3.universal_co]
                  ltac:(repeat constructor; unfold MAXORDINAL; lia)
                  ltac:(repeat constructor; lia)
                  ltac:(exists Sample3.universal, Sample3.islands;
                        split; [exists [], [], []; reflexivity|split; reflexivity])
                  ltac:(exists 2; simpl; split; [auto|lia])
                  ltac:(apply names_distinct_check; vm_compute; reflexivity))).
  intros p [<-|[<-|[]]]; repeat split; intros x Hx; try contradiction;
    discriminate.
Defined.

(** C10, as the specification states it, fails: two demanding parks whose
    names PuLP rewrites to the same text, on the days 1, 2 and 4, make
    block 2 raise [PulpError] before block 7 is reached. *)
Lemma overlapping_names_precede_the_missing_key :
  StronglySorted Z.lt [1; 2; 4] /\
  demanding_pair [Sample8.spaced; Sample8.underscored] /\
  (In 2 (removelast [1; 2; 4]) /\ ~ In (2 + 1) [1; 2; 4]) /\
  build_model [1; 2; 4] [Sample8.spaced; Sample8.underscored] []
  = Raise (PulpError "Constraint_2:_Park_A_B_must_be_assigned_to_a_day.").
Proof.
  split; [repeat constructor; lia|]. split.
  - exists Sample8.spaced, Sample8.underscored.
    split; [exists [], [], []; reflexivity|split; reflexivity].
  - split; [|vm_compute; reflexivity].
    simpl. split; [auto|lia].
Qed.

(** ** The slack variables that exist and are paid for *)

Lemma in_all_quadruples days parks p1 p2 d1 d2 :
  In (p1, p2, d1, d2) (all_quadruples days parks) <->
  In p1 (park_names parks) /\ In p2 (park_names parks) /\
  In d1 days /\ In d2 days.
Proof.
  unfold all_quadruples. split.
  - intros H.
    apply in_flat_map in H. destruct H as [a [Ha H]].
    apply in_flat_map in H. destruct H as [b [Hb H]].
    apply in_flat_map in H. destruct H as [c [Hc H]].
    apply in_map_iff in H. destruct H as [d [Hd H]].
    inversion Hd; subst. tauto.
  - intros [H1 [H2 [H3 H4]]].
    apply in_flat_map. exists p1. split; [assumption|].
    apply in_flat_map. exists p2. split; [assumption|].
    apply in_flat_map. exists d1. split; [assumption|].
    apply in_map_iff. exists d2. auto.
Qed.

Lemma slack_at_iff days parks mk p1 p2 d1 d2 :
  (exists v, slack_at (dicts4 days parks mk) p1 p2 d1 d2 = Ok v) <->
  In p1 (park_names parks) /\ In p2 (park_names parks) /\
  In d1 days /\ In d2 days.
Proof.
  split.
  - intros [v H]. unfold slack_at, dicts4 in H.
    bind_inv H. apply getitem_dicts_inv in E. destruct E as [-> H1].
    bind_inv H. apply getitem_dicts_inv in E. destruct E as [-> H2].
    bind_inv H. apply getitem_dicts_inv in E. destruct E as [-> H3].
    apply getitem_dicts_inv in H. tauto.
  - intros [H1 [H2 [H3 H4]]]. exists (mk p1 p2 d1 d2).
    now apply slack_at_in.
Qed.

Lemma in_penalties_vars days parks v :
  In v (vars_of (penalties days parks)) <->
  (exists p, v = slack_6 p /\ In p (park_names parks)) \/
  (exists p1 p2 d1 d2, v = slack_7 p1 p2 d1 d2 /\
                       In (p1, p2, d1, d2) (all_quadruples days parks)) \/
  (exists p1 p2 d1 d2, v = slack_8 p1 p2 d1 d2 /\
                       In (p1, p2, d1, d2) (all_quadruples days parks)).
Proof.
  unfold penalties. simpl.
  repeat rewrite in_app_iff. repeat rewrite in_map_iff. split.
  - intros [[[x [Hx Hin]]|[[[[a b] c] d] [Hx Hin]]]|[[[[a b] c] d] [Hx Hin]]].
    + left. eauto.
    + right. left. exists a, b, c, d. auto.
    + right. right. exists a, b, c, d. auto.
  - intros [[p [-> Hin]]|[[a [b [c [d [-> Hin]]]]]|[a [b [c [d [-> Hin]]]]]]].
    + left. left. eauto.
    + left. right. exists (a, b, c, d). auto.
    + right. exists (a, b, c, d). auto.
Qed.

(** C4, as the code has it.  The dictionaries [slack_variables_7] and
    [slack_variables_8] hold a variable under the keys [p1], [p2], [d1],
    [d2] exactly when [p1] and [p2] are names of parks and [d1] and [d2]
    are days of the trip, whatever the parks' [demanding] flags and
    companies and whatever the order of the two days; the objective of the
    built model sums exactly these variables and [slack_6[p]] for every
    park name [p], and no park variable. *)
Theorem slack_variables_over_all_quadruples days parks companies m :
  build_model days parks companies = Ok m ->
  forall p1 p2 d1 d2,
    let known :=
      In p1 (park_names parks) /\ In p2 (park_names parks) /\
      In d1 days /\ In d2 days in
    ((exists v, slack_at (slack_variables_7 days parks) p1 p2 d1 d2 = Ok v)
     <-> known) /\
    ((exists v, slack_at (slack_variables_8 days parks) p1 p2 d1 d2 = Ok v)
     <-> known) /\
    (In (slack_7 p1 p2 d1 d2) (objective_vars m) <-> known) /\
    (In (slack_8 p1 p2 d1 d2) (objective_vars m) <-> known) /\
    (In (slack_6 p1) (objective_vars m) <-> In p1 (park_names parks)) /\
    ~ In (park_schedule p1 d1) (objective_vars m).
Proof.
  intros Hb p1 p2 d1 d2 known. apply build_model_inv in Hb. subst m.
  unfold objective_vars, known. cbn [objective].
  split; [apply slack_at_iff|]. split; [apply slack_at_iff|].
  repeat rewrite in_penalties_vars. rewrite <- in_all_quadruples.
  split; [|split; [|split]].
  - split.
    + intros [[p [Hx _]]|[[a [b [c [d [Hx Hin]]]]]|[a [b [c [d [Hx _]]]]]]];
        try discriminate.
      inversion Hx; subst. assumption.
    + intros H. right. left. exists p1, p2, d1, d2. auto.
  - split.
    + intros [[p [Hx _]]|[[a [b [c [d [Hx _]]]]]|[a [b [c [d [Hx Hin]]]]]]];
        try discriminate.
      inversion Hx; subst. assumption.
    + intros H. right. right. exists p1, p2, d1, d2. auto.
  - split.
    + intros [[p [Hx Hin]]|[[a [b [c [d [Hx _]]]]]|[a [b [c [d [Hx _]]]]]]];
        try discriminate.
      inversion Hx; subst. assumption.
    + intros H. left. eauto.
  - intros [[p [Hx _]]|[[a [b [c [d [Hx _]]]]]|[a [b [c [d [Hx _]]]]]]];
      discriminate.
Qed.

Lemma slack_variables_over_all_quadruples_witness :
  In (slack_7 "Aquatica" "Aquatica" 1 1) (objective_vars Sample4.lone_park) /\
  In (slack_8 "Aquatica" "Aquatica" 1 1) (objective_vars Sample4.lone_park).
Proof.
  destruct (slack_variables_over_all_quadruples
              [1] [Sample.aquatica] [Sample.sea_world] Sample4.lone_park
              eq_refl "Aquatica" "Aquatica" 1 1)
    as [_ [_ [[_ H7] [[_ H8] _]]]].
  split; [apply H7|apply H8]; simpl; auto.
Defined.

(** C4, as the specification states it, fails: for one park that is not
    demanding and one day, [slack_7] and [slack_8] variables of that park
    with itself and of that day with itself are summed into the objective. *)
Lemma slack_variables_outside_listed_families :
  build_model [1] [Sample.aquatica] [Sample.sea_world] = Ok Sample4.lone_park /\
  In (slack_7 "Aquatica" "Aquatica" 1 1) (objective_vars Sample4.lone_park) /\
  ~ listed_slack_7 [1] [Sample.aquatica] "Aquatica" "Aquatica" 1 1 /\
  In (slack_8 "Aquatica" "Aquatica" 1 1) (objective_vars Sample4.lone_park) /\
  ~ listed_slack_8 [1] [Sample.aquatica] "Aquatica" "Aquatica" 1 1.
Proof.
  split; [reflexivity|]. split; [simpl; auto|]. split.
  - intros [a1 [a2 [_ [_ [_ [_ [Hne _]]]]]]]. now apply Hne.
  - split; [simpl; auto|].
    intros [a1 [a2 [_ [_ [_ [_ [_ [_ [_ Hlt]]]]]]]]]. lia.
Qed.
(** ** The printed schedule *)

Lemma flat_map_map_comp {A B C} (f : A -> B) (g : B -> list C) (l : list A) :
  flat_map g (map f l) = flat_map (fun a => g (f a)) l.
Proof. induction l; simpl; congruence. Qed.

Lemma map_flat_map {A B C} (f : B -> C) (g : A -> list B) (l : list A) :
  map f (flat_map g l) = flat_map (fun a => map f (g a)) l.
Proof.
  induction l as [|a l IH]; simpl; [reflexivity|].
  now rewrite map_app, IH.
Qed.

Lemma flat_map_ext_in {A B} (f g : A -> list B) (l : list A) :
  (forall a, In a l -> f a = g a) -> flat_map f l = flat_map g l.
Proof.
  induction l as [|a l IH]; simpl; intros H; [reflexivity|].
  rewrite H by now left. rewrite IH; auto.
Qed.

(** The loop of lines 98 to 102 never raises and prints the schedule. *)
Lemma print_loop_ok days parks sol out :
  for_each days (fun x =>
    for_each parks (fun y out =>
      v <- variables_at days parks (Park.name y) x ;;
      let value := varValue sol v in
      if truthy value then Ok (out ++ [PrintVisit x (Park.name y)])
      else Ok out)) out
  = Ok (out ++ map visit_line (schedule days parks (varValue sol))).
Proof.
  unfold schedule. rewrite map_flat_map.
  apply (for_each_ok (@app Line) (@app_nil_r Line)).
  { intros. now rewrite app_assoc. }
  intros x o Hx. rewrite map_flat_map.
  apply (for_each_ok (@app Line) (@app_nil_r Line)).
  { intros. now rewrite app_assoc. }
  intros y o' Hy.
  rewrite variables_at_in by auto using name_in. simpl.
  destruct (truthy (varValue sol (park_schedule (Park.name y) x))); simpl.
  - reflexivity.
  - now rewrite app_nil_r.
Qed.

Lemma visits_visit_lines (vs : list (Day * string)) :
  visits (map visit_line vs) = vs.
Proof.
  induction vs as [|[d p] vs IH]; simpl; [reflexivity|]. now rewrite IH.
Qed.

Lemma printed_visits days parks problem sol :
  exists out,
    print_solution days parks problem sol = Ok out /\
    visits out =
      if status_code (status sol) >=? 0
      then schedule days parks (varValue sol)
      else [].
Proof.
  unfold print_solution.
  destruct (status_code (status sol) >=? 0).
  - rewrite print_loop_ok. eexists. split; [reflexivity|].
    unfold visits at 1. rewrite flat_map_app. simpl.
    apply visits_visit_lines.
  - eexists. split; reflexivity.
Qed.

(** C2, as the code has it.  The printing part of the function makes no
    consistency check and never raises: after the status and the objective
    value it prints, when the status is not negative, a line for every day
    and park whose variable has a value that is neither [None] nor zero, in
    the order of the days and then of the parks, and otherwise no visit at
    all. *)
Theorem printed_schedule_is_unchecked days parks problem sol :
  print_solution days parks problem sol
  = Ok ([PrintStatus (status sol);
         PrintObjective match objective problem with
                        | Some e => value (varValue sol) e
                        | None => None
                        end]
        ++ if status_code (status sol) >=? 0
           then map visit_line (schedule days parks (varValue sol))
           else []).
Proof.
  unfold print_solution.
  destruct (status_code (status sol) >=? 0).
  - rewrite print_loop_ok. reflexivity.
  - now rewrite app_nil_r.
Qed.

(** C2, as the specification states it, fails: with one park and two days,
    a solution reported optimal in which the park variable is 1 on both
    days is printed as it is, the park on both days. *)
Lemma inconsistent_schedule_is_printed :
  optimize_park_scheduling Sample4.all_ones [1; 2] [Sample.aquatica]
    [Sample.sea_world]
  = Ok [PrintStatus LpStatusOptimal; PrintObjective (Some (90000 # 1));
        PrintVisit 1 "Aquatica"; PrintVisit 2 "Aquatica"] /\
  ~ schedule_consistent [Sample.aquatica]
      [(1, "Aquatica"%string); (2, "Aquatica"%string)].
Proof.
  split; [vm_compute; reflexivity|].
  intros [H _]. specialize (H Sample.aquatica (or_introl eq_refl)).
  vm_compute in H. discriminate.
Qed.

(** ** Inputs the specification calls malformed *)

Lemma zero_and_one_unsatisfiable (v : Assignment) (x : LpVariable) :
  holds v (EVar x == EConst 0)%lp -> holds v (EVar x == EConst 1)%lp -> False.
Proof.
  unfold holds. simpl. intros H0 H1. rewrite H0 in H1.
  discriminate H1.
Qed.

(** C3, as the code has it.  The builder validates nothing and knows no
    configuration error.  For calendar dates, when every day the parks
    refer to is a day of the trip, every day but the last is followed by
    its successor if two parks are demanding, and PuLP keeps the names of
    the constraints apart, it returns a model, whatever else the input
    holds: an empty list of days, companies without parks, parks without a
    listed company.  When a park must be visited on a day on which it
    cannot be visited, the model holds both [x[p][d] == 0] and
    [x[p][d] == 1], and no assignment satisfies its hard constraints. *)
Theorem malformed_input_is_built days parks companies :
  Forall valid_date days ->
  (forall p, In p parks -> days_known days p) ->
  (demanding_pair parks -> successors_known days) ->
  names_distinct days parks companies ->
  exists m,
    build_model days parks companies = Ok m /\
    forall p d,
      In p parks -> Park.must_visit_day p = Some d ->
      In d (Park.cannot_visit_days p) ->
      In (Constraint_3 (Park.name p) d, zeroed (Park.name p) d)
         (constraints m) /\
      In (Constraint_4 (Park.name p) d,
          (EVar (park_schedule (Park.name p) d) == EConst 1)%lp)
         (constraints m) /\
      forall v, ~ satisfies_hard v m.
Proof.
  intros Hv Hk Hs Hnd. eexists. split; [now apply build_model_ok|].
  intros p d Hp Hm Hc. cbn [constraints].
  assert (H3 : In (Constraint_3 (Park.name p) d, zeroed (Park.name p) d)
                  (all_rules days parks companies)).
  { apply in_all_rules. right. right. left. apply in_rules_3.
    exists p, d. auto. }
  assert (H4 : In (Constraint_4 (Park.name p) d,
                   (EVar (park_schedule (Park.name p) d) == EConst 1)%lp)
                  (all_rules days parks companies)).
  { apply in_all_rules. do 3 right. left. apply in_rules_4.
    exists p, d. auto. }
  repeat split; auto.
  intros v Hsat.
  apply (zero_and_one_unsatisfiable v (park_schedule (Park.name p) d)).
  - apply (Hsat _ _ H3 eq_refl).
  - apply (Hsat _ _ H4 eq_refl).
Qed.

Lemma malformed_input_is_built_witness :
  exists m,
    build_model [1; 2; 3] [Sample.cove] [Sample.sea_world; Sample.disney]
    = Ok m /\
    forall p d,
      In p [Sample.cove] -> Park.must_visit_day p = Some d ->
      In d (Park.cannot_visit_days p) ->
      In (Constraint_3 (Park.name p) d, zeroed (Park.name p) d)
         (constraints m) /\
      In (Constraint_4 (Park.name p) d,
          (EVar (park_schedule (Park.name p) d) == EConst 1)%lp)
         (constraints m) /\
      forall v, ~ satisfies_hard v m.
Proof.
  apply (malformed_input_is_built
           [1; 2; 3] [Sample.cove] [Sample.sea_world; Sample.disney]).
  - repeat constructor; unfold MAXORDINAL; lia.
  - intros p [<-|[]]. repeat split; intros x Hx; simpl in *.
    + destruct Hx as [<-|[]]. auto.
    + inversion Hx; subst. auto.
    + contradiction.
    + contradiction.
  - intros [p1 [p2 [[l1 [l2 [l3 Hl]]] _]]].
    destruct l1 as [|a [|b l1]]; simpl in Hl; inversion Hl.
    destruct l2; discriminate.
  - apply names_distinct_check. vm_compute. reflexivity.
Defined.

(** C3, as the specification states it, fails: a park that must be visited
    on day 2 and cannot be visited on day 2, together with a company that
    owns no park, is turned into a model without any error. *)
Lemma malformed_input_raises_nothing :
  malformed [1; 2; 3] [Sample.cove] [Sample.sea_world; Sample.disney] /\
  build_model [1; 2; 3] [Sample.cove] [Sample.sea_world; Sample.disney]
  = Ok Sample4.contradictory /\
  build_model [] [] [Sample.disney]
  = Ok (mkProblem (Some (penalties [] [])) []).
Proof.
  split; [|split; reflexivity].
  left. exists Sample.cove, 2. simpl. auto.
Qed.

(** ** More parks than days *)

Lemma eval_lpSum_map {A} (v : Assignment) (g : A -> LpVariable) (l : list A) :
  eval v (lpSum (map g l)) = qsum (fun a => v (g a)) l.
Proof. induction l as [|a l IH]; simpl in *; congruence. Qed.

Lemma qsum_compat {A} (f g : A -> Q) (l : list A) :
  (forall a, In a l -> (f a == g a)%Q) -> (qsum f l == qsum g l)%Q.
Proof.
  induction l as [|a l IH]; simpl; intros H; [reflexivity|].
  rewrite (H a) by now left. rewrite IH by auto. reflexivity.
Qed.

Lemma qsum_le {A} (f g : A -> Q) (l : list A) :
  (forall a, In a l -> (f a <= g a)%Q) -> (qsum f l <= qsum g l)%Q.
Proof.
  induction l as [|a l IH]; simpl; intros H; [apply Qle_refl|].
  apply Qplus_le_compat; auto.
Qed.

Lemma qsum_ones {A} (l : list A) :
  (qsum (fun _ => 1%Q) l == inject_Z (Z.of_nat (List.length l)))%Q.
Proof.
  induction l as [|a l IH]; [reflexivity|].
  change (qsum (fun _ => 1%Q) (a :: l)) with (1 + qsum (fun _ : A => 1%Q) l)%Q.
  rewrite IH. cbn [List.length]. rewrite Nat2Z.inj_succ.
  unfold Z.succ. rewrite inject_Z_plus. simpl. ring.
Qed.

Lemma qsum_plus {A} (f g : A -> Q) (l : list A) :
  (qsum (fun a => f a + g a) l == qsum f l + qsum g l)%Q.
Proof.
  induction l as [|a l IH]; simpl; [reflexivity|]. rewrite IH. ring.
Qed.

Lemma qsum_zero {A} (l : list A) : (qsum (fun _ => 0%Q) l == 0)%Q.
Proof. induction l as [|a l IH]; simpl; [reflexivity|]. rewrite IH. ring. Qed.

Lemma qsum_swap {A B} (f : A -> B -> Q) (l1 : list A) (l2 : list B) :
  (qsum (fun a => qsum (f a) l2) l1 == qsum (fun b => qsum (fun a => f a b) l1) l2)%Q.
Proof.
  induction l1 as [|a l1 IH].
  - symmetry. apply (qsum_zero l2).
  - change (qsum (f a) l2 + qsum (fun a0 => qsum (f a0) l2) l1
            == qsum (fun b => f a b + qsum (fun a0 => f a0 b) l1) l2)%Q.
    rewrite IH. symmetry.
    apply (qsum_plus (f a) (fun b => qsum (fun a0 => f a0 b) l1)).
Qed.

(** What the rules 1 and 2 of a built model say of an assignment *)
Lemma hard_rules_1_2 days parks companies v :
  satisfies_hard v (mkProblem (Some (penalties days parks))
                              (all_rules days parks companies)) ->
  (forall d, In d days ->
     (qsum (fun p => v (park_schedule p d)) (park_names parks) <= 1)%Q) /\
  (forall p, In p (park_names parks) ->
     (qsum (fun d => v (park_schedule p d)) days == 1)%Q).
Proof.
  intros Hsat. split.
  - intros d Hd.
    assert (H : In (one_park_per_day parks d) (all_rules days parks companies)).
    { apply in_all_rules. left. apply in_rules_1. eauto. }
    unfold one_park_per_day in H. apply (Hsat (Constraint_1 d)) in H; [|reflexivity].
    unfold holds in H. cbn [sense lhs rhs] in H.
    rewrite eval_lpSum_map in H. exact H.
  - intros p Hp.
    assert (H : In (one_day_per_park days p) (all_rules days parks companies)).
    { apply in_all_rules. right. left. apply in_rules_2. eauto. }
    unfold one_day_per_park in H. apply (Hsat (Constraint_2 p)) in H; [|reflexivity].
    unfold holds in H. cbn [sense lhs rhs] in H.
    rewrite eval_lpSum_map in H. exact H.
Qed.

(** C6.  When there are more parks than days, no assignment at all
    satisfies the hard constraints of the built model; hence, with a solver
    that reports the status [Infeasible] for a problem whose constraints
    no assignment satisfies, the function prints that status and the
    objective value and no visit. *)
Theorem more_parks_than_days_is_infeasible days parks companies m :
  build_model days parks companies = Ok m ->
  (List.length days < List.length parks)%nat ->
  (forall v, ~ satisfies_hard v m) /\
  (forall solve,
     (forall problem,
        (forall v, ~ satisfies v problem) ->
        status (solve problem) = LpStatusInfeasible) ->
     exists o,
       optimize_park_scheduling solve days parks companies
       = Ok [PrintStatus LpStatusInfeasible; PrintObjective o]).
Proof.
  intros Hb Hlen.
  assert (Hinf : forall v, ~ satisfies_hard v m).
  { intros v Hsat. apply build_model_inv in Hb. subst m.
    destruct (hard_rules_1_2 _ _ _ _ Hsat) as [R1 R2].
    assert (Hp : (qsum (fun p => qsum (fun d => v (park_schedule p d)) days)
                       (park_names parks)
                  == inject_Z (Z.of_nat (List.length parks)))%Q).
    { rewrite (qsum_compat _ (fun _ => 1%Q)) by exact R2.
      rewrite qsum_ones. unfold park_names. now rewrite length_map. }
    assert (Hd : (qsum (fun d => qsum (fun p => v (park_schedule p d))
                                      (park_names parks)) days
                  <= inject_Z (Z.of_nat (List.length days)))%Q).
    { rewrite <- qsum_ones. apply qsum_le. exact R1. }
    rewrite qsum_swap in Hp. rewrite Hp in Hd.
    rewrite <- Zle_Qle in Hd. lia. }
  split; [exact Hinf|].
  intros solve Hsolve.
  assert (Hst : status (solve m) = LpStatusInfeasible).
  { apply Hsolve. intros v Hsat. apply (Hinf v).
    intros n c Hin _. now apply Hsat in Hin. }
  unfold optimize_park_scheduling. rewrite Hb. simpl.
  unfold print_solution. rewrite Hst. simpl. eauto.
Qed.

Lemma more_parks_than_days_is_infeasible_witness :
  (forall v, ~ satisfies_hard v Sample8.crowded) /\
  exists o,
    optimize_park_scheduling Sample8.wary [1]
      [Sample.aquatica; Sample.kingdom] [Sample.sea_world; Sample.disney]
    = Ok [PrintStatus LpStatusInfeasible; PrintObjective o].
Proof.
  destruct (more_parks_than_days_is_infeasible
              [1] [Sample.aquatica; Sample.kingdom]
              [Sample.sea_world; Sample.disney] Sample8.crowded eq_refl)
    as [Hinf Hrun].
  - simpl. lia.
  - split; [exact Hinf|]. apply Hrun.
    intros problem Hno. unfold Sample8.wary.
    destruct (constraints problem) as [|nc cs] eqn:E; [|reflexivity].
    exfalso. apply (Hno (fun _ => 0%Q)).
    intros n c Hin. rewrite E in Hin. contradiction.
Defined.

(** ** Counting the visits of a schedule *)

Lemma nsum_count_le {A} (dec : forall x y : A, {x = y} + {x <> y})
  (f : A -> nat) (l : list A) (a : A) :
  (count_occ dec l a * f a <= nsum f l)%nat.
Proof.
  induction l as [|x l IH]; simpl; [lia|].
  destruct (dec x a) as [->|Hne]; lia.
Qed.

Lemma nsum_pos {A} (f : A -> nat) (l : list A) :
  (0 < nsum f l)%nat -> exists a, In a l /\ (0 < f a)%nat.
Proof.
  induction l as [|x l IH]; simpl; [lia|]. intros H.
  destruct (f x) as [|k] eqn:E.
  - destruct IH as [a [Ha Hf]]; [lia|]. eauto.
  - exists x. split; [now left|lia].
Qed.

Lemma count_occ_flat_map {A B} (dec : forall x y : B, {x = y} + {x <> y})
  (g : A -> list B) (l : list A) (b : B) :
  count_occ dec (flat_map g l) b = nsum (fun a => count_occ dec (g a) b) l.
Proof.
  induction l as [|a l IH]; simpl; [reflexivity|].
  now rewrite count_occ_app, IH.
Qed.

Lemma nsum_ext {A} (f g : A -> nat) (l : list A) :
  (forall a, f a = g a) -> nsum f l = nsum g l.
Proof. intros H. induction l; simpl; congruence. Qed.

Lemma qsum_nsum {A} (f : A -> Q) (g : A -> nat) (l : list A) :
  (forall a, (f a == inject_Z (Z.of_nat (g a)))%Q) ->
  (qsum f l == inject_Z (Z.of_nat (nsum g l)))%Q.
Proof.
  intros H. induction l as [|a l IH]; [reflexivity|].
  change (f a + qsum f l == inject_Z (Z.of_nat (g a + nsum g l)))%Q.
  rewrite H, IH, Nat2Z.inj_add, inject_Z_plus. reflexivity.
Qed.

Lemma binary_value (v : Assignment) p d :
  binary v ->
  (v (park_schedule p d) == inject_Z (Z.of_nat (ind (assigned v p d))))%Q.
Proof.
  intros Hb. unfold assigned, truthy.
  destruct (Qeq_bool (v (park_schedule p d)) 0) eqn:E; simpl.
  - now apply Qeq_bool_iff in E.
  - destruct (Hb p d) as [H|H]; [|exact H].
    apply Qeq_bool_iff in H. congruence.
Qed.

Lemma count_snd_row names (b : string -> Day -> bool) x n :
  count_occ string_dec (map snd (row names b x)) n
  = (count_occ string_dec names n * ind (b n x))%nat.
Proof.
  unfold row. induction names as [|a l IH]; simpl; [reflexivity|].
  rewrite map_app, count_occ_app, IH.
  destruct (string_dec a n) as [->|Hne].
  - destruct (b n x); simpl.
    + destruct (string_dec n n); [lia|congruence].
    + lia.
  - destruct (b a x); simpl; [|reflexivity].
    destruct (string_dec a n); [congruence|reflexivity].
Qed.

Lemma count_fst_row names (b : string -> Day -> bool) x' x :
  count_occ Z.eq_dec (map fst (row names b x')) x
  = if Z.eq_dec x' x then nsum (fun p => ind (b p x')) names else 0%nat.
Proof.
  unfold row. induction names as [|a l IH].
  - simpl. now destruct (Z.eq_dec x' x).
  - cbn [flat_map]. rewrite map_app, count_occ_app. unfold Day in *.
    rewrite IH.
    cbn [nsum fold_right].
    destruct (b a x'); simpl; destruct (Z.eq_dec x' x); reflexivity.
Qed.

Section Counting.
Variable names : list string.
Variable days : list Day.
Variable b : string -> Day -> bool.

(** Rule 1 and rule 2, counted *)
Hypothesis one_per_day :
  forall d, In d days -> (nsum (fun p => ind (b p d)) names <= 1)%nat.
Hypothesis one_per_park :
  forall p, In p names -> nsum (fun d => ind (b p d)) days = 1%nat.

Lemma name_once n : In n names -> count_occ string_dec names n = 1%nat.
Proof.
  intros Hn. pose proof (proj1 (count_occ_In string_dec names n) Hn) as Hge.
  pose proof (one_per_park n Hn) as H2.
  destruct (nsum_pos (fun d => ind (b n d)) days) as [x [Hx Hpos]]; [lia|].
  pose proof (one_per_day x Hx) as H1.
  pose proof (nsum_count_le string_dec (fun p => ind (b p x)) names n) as Hle.
  simpl in Hle. nia.
Qed.

Lemma each_park_once n :
  In n names ->
  count_occ string_dec (map snd (flat_map (row names b) days)) n = 1%nat.
Proof.
  intros Hn. rewrite map_flat_map, count_occ_flat_map.
  rewrite (nsum_ext _ (fun x => (count_occ string_dec names n * ind (b n x))%nat))
    by (intros; apply count_snd_row).
  rewrite (name_once n Hn).
  rewrite (nsum_ext _ (fun x => ind (b n x))) by (intros; lia).
  now apply one_per_park.
Qed.

Lemma nsum_if_eq (x : Day) (f : Day -> nat) (l : list Day) :
  nsum (fun x' => if Z.eq_dec x' x then f x' else 0%nat) l
  = (count_occ Z.eq_dec l x * f x)%nat.
Proof.
  induction l as [|a l IH]; simpl; [reflexivity|].
  rewrite IH. destruct (Z.eq_dec a x) as [->|Hne]; lia.
Qed.

Lemma each_day_at_most_once :
  NoDup (map fst (flat_map (row names b) days)).
Proof.
  apply (NoDup_count_occ Z.eq_dec). intros x.
  rewrite map_flat_map, count_occ_flat_map.
  rewrite (nsum_ext _ (fun x' => if Z.eq_dec x' x
                                 then nsum (fun p => ind (b p x')) names
                                 else 0%nat))
    by (intros; apply count_fst_row).
  rewrite (nsum_if_eq x (fun x' => nsum (fun p => ind (b p x')) names)).
  destruct (count_occ Z.eq_dec days x) as [|k] eqn:Ec; [lia|].
  assert (Hx : In x days) by (apply (count_occ_In Z.eq_dec); lia).
  pose proof (one_per_day x Hx) as H1.
  destruct (nsum (fun p => ind (b p x)) names) as [|c] eqn:En; [lia|].
  destruct (nsum_pos (fun p => ind (b p x)) names) as [n [Hn Hpos]]; [lia|].
  pose proof (one_per_park n Hn) as H2.
  pose proof (nsum_count_le Z.eq_dec (fun d => ind (b n d)) days x) as Hle.
  cbv beta in Hle. unfold Day in *. rewrite H2, Ec in Hle. nia.
Qed.

End Counting.

(** ** Rules 1 and 2: a schedule is an injection *)

Lemma schedule_rows days parks v vals :
  (forall p d, vals (park_schedule p d) = Some (v (park_schedule p d))) ->
  schedule days parks vals
  = flat_map (row (park_names parks) (assigned v)) days.
Proof.
  intros Hv. unfold schedule, row, park_names.
  apply flat_map_ext_in. intros x _. rewrite flat_map_map_comp.
  apply flat_map_ext_in. intros y _. unfold assigned. now rewrite Hv.
Qed.

(** C5.  For an assignment that gives every park variable the value 0 or 1
    and satisfies the hard constraints of the built model, the visits that
    the function prints from these values list every park exactly once and
    no day twice; each visit is a day of the trip on which the variable of
    the park is 1. *)
Theorem feasible_assignment_gives_injective_schedule
  days parks companies m v sol :
  build_model days parks companies = Ok m ->
  binary v ->
  satisfies_hard v m ->
  (forall p d,
     varValue sol (park_schedule p d) = Some (v (park_schedule p d))) ->
  status_code (status sol) >= 0 ->
  exists out,
    print_solution days parks m sol = Ok out /\
    schedule_consistent parks (visits out) /\
    (forall d p, In (d, p) (visits out) ->
       In d days /\ In p (park_names parks) /\
       (v (park_schedule p d) == 1)%Q).
Proof.
  intros Hb Hbin Hsat Hval Hst. apply build_model_inv in Hb. subst m.
  destruct (hard_rules_1_2 _ _ _ _ Hsat) as [R1 R2].
  assert (R1n : forall d, In d days ->
    (nsum (fun p => ind (assigned v p d)) (park_names parks) <= 1)%nat).
  { intros d Hd. specialize (R1 d Hd).
    rewrite (qsum_nsum _ (fun p => ind (assigned v p d))) in R1
      by (intros; now apply binary_value).
    change 1%Q with (inject_Z 1) in R1. rewrite <- Zle_Qle in R1. lia. }
  assert (R2n : forall p, In p (park_names parks) ->
    nsum (fun d => ind (assigned v p d)) days = 1%nat).
  { intros p Hp. specialize (R2 p Hp).
    rewrite (qsum_nsum _ (fun d => ind (assigned v p d))) in R2
      by (intros; now apply binary_value).
    change 1%Q with (inject_Z 1) in R2. apply (proj1 (inject_Z_injective _ _)) in R2.
    lia. }
  destruct (printed_visits days parks
              (mkProblem (Some (penalties days parks))
                         (all_rules days parks companies)) sol)
    as [out [Hout Hvis]].
  exists out. split; [assumption|].
  assert (Hge : (status_code (status sol) >=? 0) = true)
    by (apply Z.geb_le; lia).
  rewrite Hge in Hvis. rewrite Hvis.
  rewrite (schedule_rows days parks v _ Hval). split; [split|].
  - intros p Hp. apply each_park_once; auto using name_in.
  - apply each_day_at_most_once; auto.
  - intros d p Hin. apply in_flat_map in Hin. destruct Hin as [x [Hx Hin]].
    unfold row in Hin. apply in_flat_map in Hin. destruct Hin as [n [Hn Hin]].
    destruct (assigned v n x) eqn:E; [|contradiction].
    destruct Hin as [Hin|[]]. inversion Hin; subst.
    repeat split; auto.
    pose proof (binary_value v p d Hbin) as Hq. rewrite E in Hq. exact Hq.
Qed.
Lemma feasible_assignment_gives_injective_schedule_witness :
  exists out,
    print_solution [1; 2] [Sample.aquatica; Sample.kingdom]
      Sample5.two_parks Sample5.solved = Ok out /\
    schedule_consistent [Sample.aquatica; Sample.kingdom] (visits out) /\
    (forall d p, In (d, p) (visits out) ->
       In d [1; 2] /\
       In p (park_names [Sample.aquatica; Sample.kingdom]) /\
       (Sample5.plan (park_schedule p d) == 1)%Q).
Proof.
  apply (feasible_assignment_gives_injective_schedule
           [1; 2] [Sample.aquatica; Sample.kingdom]
           [Sample.sea_world; Sample.disney]
           Sample5.two_parks Sample5.plan Sample5.solved eq_refl).
  - intros p d. unfold Sample5.plan.
    destruct ((String.eqb p "Aquatica" && (d =? 1))
              || (String.eqb p "Magic Kingdom" && (d =? 2)))%bool;
      [right|left]; reflexivity.
  - intros n c Hin Hh. simpl in Hin.
    repeat (destruct Hin as [Hin|Hin];
            [inversion Hin; subst; vm_compute;
             first [reflexivity | intro X; discriminate X]|]).
    contradiction.
  - intros p d. reflexivity.
  - simpl. lia.
Defined.

(** * Further properties of the builder and of the printed schedule *)

(** ** Which exceptions the builder raises, and when *)



(** X2.  An exception of the builder is a [PulpError] only if two of the
    constraints get the same name from PuLP.  When PuLP keeps the names
    apart, an exception is either a [KeyError] whose key is a day that is
    not in [days] (never a park name), or an [OverflowError]; the latter
    only when two parks are demanding and the successor of a day other
    than the last is no calendar date. *)
Theorem build_model_exceptions days parks companies e :
  build_model days parks companies = Raise e ->
  ((exists name, e = PulpError name) ->
   ~ names_distinct days parks companies) /\
  (names_distinct days parks companies ->
   absent_day days e \/
   (e = OverflowError /\ demanding_pair parks /\
    exists d, In d (removelast days) /\ ~ valid_date (d + 1))).
Proof.
  intros Hb.
  assert (H : names_distinct days parks companies ->
    absent_day days e \/
    (e = OverflowError /\ demanding_pair parks /\
     exists d, In d (removelast days) /\ ~ valid_date (d + 1))).
  { intros Hnd.
    destruct (build_model_when days parks companies Hnd) as [E|[e' [E Hf]]];
      [congruence|].
    assert (e' = e) by congruence. subst e'.
    destruct Hf as [[p [d [_ [_ [Hn ->]]]]]|[_ [Hp [d [Hd [[Hv ->]|[Hn ->]]]]]]].
    - left. exists d. auto.
    - right. eauto.
    - left. exists (d + 1). auto. }
  split; [|exact H].
  intros [name ->] Hnd.
  destruct (H Hnd) as [[d [Hd _]]|[Hd _]]; discriminate.
Qed.

Lemma build_model_exceptions_witness :
  ((exists name, KeyError (KDay 3) = PulpError name) ->
   ~ names_distinct [1; 2; 4] [Sample3.universal; Sample3.islands]
       [Sample3.universal_co]) /\
  (names_distinct [1; 2; 4] [Sample3.universal; Sample3.islands]
     [Sample3.universal_co] ->
   absent_day [1; 2; 4] (KeyError (KDay 3)) \/
   (KeyError (KDay 3) = OverflowError /\
    demanding_pair [Sample3.universal; Sample3.islands] /\
    exists d, In d (removelast [1; 2; 4]) /\ ~ valid_date (d + 1))).
Proof.
  apply (build_model_exceptions [1; 2; 4]
           [Sample3.universal; Sample3.islands] [Sample3.universal_co]).
  reflexivity.
Defined.

(** X3.  Block 6 adds no constraint, yet it looks the preferred days up:
    when PuLP keeps the names of the constraints apart, a park with a
    preferred day that is not a day of the trip makes the builder raise
    [KeyError] for a day outside [days]. *)
Theorem preferred_day_outside_trip_raises days parks companies p d :
  In p parks -> In d (Park.preferred_days p) -> ~ In d days ->
  names_distinct days parks companies ->
  exists k, ~ In k days /\
            build_model days parks companies = Raise (KeyError (KDay k)).
Proof.
  intros Hp Hd Hn Hnd.
  destruct (build_model_when days parks companies Hnd) as [E|[e [E Hf]]].
  - exfalso. apply Hn.
    destruct (build_model_days_known _ _ _ _ _ E Hp) as [_ [_ [_ H]]].
    now apply H.
  - destruct Hf as [[q [x [_ [_ [Hx ->]]]]]|[Hk _]]; [eauto|].
    exfalso. apply Hn. destruct (Hk p Hp) as [_ [_ [_ H]]]. now apply H.
Qed.

Lemma preferred_day_outside_trip_raises_witness :
  exists k, ~ In k [2; 3] /\
            build_model [2; 3] [Sample.epcot] [Sample.disney]
            = Raise (KeyError (KDay k)).
Proof.
  apply (preferred_day_outside_trip_raises [2; 3] [Sample.epcot]
           [Sample.disney] Sample.epcot 1).
  - simpl. auto.
  - simpl. auto.
  - simpl. lia.
  - apply names_distinct_check. vm_compute. reflexivity.
Defined.

(** ** What the hard and soft rules mean for an assignment *)

Lemma counted_rules days parks companies v :
  binary v ->
  satisfies_hard v (mkProblem (Some (penalties days parks))
                              (all_rules days parks companies)) ->
  (forall d, In d days ->
     (nsum (fun p => ind (assigned v p d)) (park_names parks) <= 1)%nat) /\
  (forall p, In p (park_names parks) ->
     nsum (fun d => ind (assigned v p d)) days = 1%nat).
Proof.
  intros Hbin Hsat. destruct (hard_rules_1_2 _ _ _ _ Hsat) as [R1 R2]. split.
  - intros d Hd. specialize (R1 d Hd).
    rewrite (qsum_nsum _ (fun p => ind (assigned v p d))) in R1
      by (intros; now apply binary_value).
    change 1%Q with (inject_Z 1) in R1. rewrite <- Zle_Qle in R1. lia.
  - intros p Hp. specialize (R2 p Hp).
    rewrite (qsum_nsum _ (fun d => ind (assigned v p d))) in R2
      by (intros; now apply binary_value).
    change 1%Q with (inject_Z 1) in R2.
    apply (proj1 (inject_Z_injective _ _)) in R2. lia.
Qed.

Lemma in_rows names (b : string -> Day -> bool) days d n :
  In (d, n) (flat_map (row names b) days) <->
  In d days /\ In n names /\ b n d = true.
Proof.
  rewrite in_flat_map. unfold row. split.
  - intros [x [Hx H]]. apply in_flat_map in H. destruct H as [y [Hy H]].
    destruct (b y x) eqn:E; [|contradiction].
    destruct H as [H|[]]. inversion H; subst. auto.
  - intros [Hd [Hn Hb]]. exists d. split; [assumption|].
    apply in_flat_map. exists n. split; [assumption|].
    rewrite Hb. now left.
Qed.

Lemma nsum_in_le {A} (f : A -> nat) (l : list A) (a : A) :
  In a l -> (f a <= nsum f l)%nat.
Proof.
  induction l as [|x l IH]; simpl; [contradiction|].
  intros [->|Ha]; [lia|]. apply IH in Ha. lia.
Qed.

Lemma nsum_two {A} (f : A -> nat) (l : list A) (a b : A) :
  a <> b -> In a l -> In b l -> (f a + f b <= nsum f l)%nat.
Proof.
  intros Hne. induction l as [|x l IH]; simpl; [contradiction|].
  intros [Ha|Ha] [Hb|Hb].
  - congruence.
  - subst x. pose proof (nsum_in_le f l b Hb). lia.
  - subst x. pose proof (nsum_in_le f l a Ha). lia.
  - specialize (IH Ha Hb). lia.
Qed.

Lemma assigned_one (v : Assignment) p d :
  (v (park_schedule p d) == 1)%Q -> assigned v p d = true.
Proof.
  intros H. unfold assigned, truthy.
  destruct (Qeq_bool (v (park_schedule p d)) 0) eqn:E; [|reflexivity].
  apply Qeq_bool_iff in E. rewrite E in H. discriminate H.
Qed.

(** X4.  A park with a [must_visit_day] gets the hard constraint
    [x[p][d] == 1]; in the schedule printed from a 0/1 assignment that
    satisfies the hard constraints, the park is listed on that day and on
    no other. *)
Theorem must_visit_day_is_the_printed_day
  days parks companies m v sol p d :
  build_model days parks companies = Ok m ->
  binary v ->
  satisfies_hard v m ->
  (forall q x,
     varValue sol (park_schedule q x) = Some (v (park_schedule q x))) ->
  status_code (status sol) >= 0 ->
  In p parks -> Park.must_visit_day p = Some d ->
  In (Constraint_4 (Park.name p) d,
      (EVar (park_schedule (Park.name p) d) == EConst 1)%lp)
     (constraints m) /\
  exists out,
    print_solution days parks m sol = Ok out /\
    forall d', In (d', Park.name p) (visits out) <-> d' = d.
Proof.
  intros Hb Hbin Hsat Hval Hst Hp Hm.
  destruct (build_model_days_known _ _ _ _ _ Hb Hp) as [_ [Hd _]].
  specialize (Hd d Hm).
  apply build_model_inv in Hb. subst m. cbn [constraints].
  assert (H4 : In (Constraint_4 (Park.name p) d,
                   (EVar (park_schedule (Park.name p) d) == EConst 1)%lp)
                  (all_rules days parks companies)).
  { apply in_all_rules. do 3 right. left. apply in_rules_4.
    exists p, d. auto. }
  split; [assumption|].
  assert (Ha : assigned v (Park.name p) d = true).
  { apply assigned_one. apply (Hsat _ _ H4 eq_refl). }
  destruct (counted_rules _ _ _ _ Hbin Hsat) as [_ R2n].
  destruct (printed_visits days parks
              (mkProblem (Some (penalties days parks))
                         (all_rules days parks companies)) sol)
    as [out [Hout Hvis]].
  exists out. split; [assumption|].
  assert (Hge : (status_code (status sol) >=? 0) = true)
    by (apply Z.geb_le; lia).
  rewrite Hge in Hvis. rewrite Hvis, (schedule_rows days parks v _ Hval).
  intros d'. rewrite in_rows. split.
  - intros [Hd' [Hn Ha']].
    destruct (Z.eq_dec d' d) as [Heq|Hne]; [assumption|]. exfalso.
    pose proof (nsum_two (fun x => ind (assigned v (Park.name p) x))
                  days d' d Hne Hd' Hd) as Hle.
    cbv beta in Hle. rewrite Ha, Ha', (R2n _ Hn) in Hle. simpl in Hle. lia.
  - intros ->. auto using name_in.
Qed.

Lemma must_visit_day_is_the_printed_day_witness :
  In (Constraint_4 "Discovery Cove" 2,
      (EVar (park_schedule "Discovery Cove" 2) == EConst 1)%lp)
     (constraints Sample6.cove_alone) /\
  exists out,
    print_solution [1; 2; 3] [Sample6.cove] Sample6.cove_alone Sample6.solved
    = Ok out /\
    forall d', In (d', "Discovery Cove"%string) (visits out) <-> d' = 2.
Proof.
  apply (must_visit_day_is_the_printed_day
           [1; 2; 3] [Sample6.cove] [Sample.sea_world]
           Sample6.cove_alone Sample6.plan Sample6.solved Sample6.cove 2
           eq_refl).
  - intros q x. unfold Sample6.plan. destruct (x =? 2); [right|left]; reflexivity.
  - intros n c Hin Hh. simpl in Hin.
    repeat (destruct Hin as [Hin|Hin];
            [inversion Hin; subst; vm_compute;
             first [reflexivity | intro X; discriminate X]|]).
    contradiction.
  - intros q x. reflexivity.
  - simpl. lia.
  - simpl. auto.
  - reflexivity.
Defined.

(** X5.  In an assignment that satisfies the built model, two demanding
    parks on consecutive days of the trip, in either order, force the one
    slack variable [slack_7[p1][p2][d][d+1]] to be at least 1. *)
Theorem consecutive_demanding_parks_cost_slack
  days parks companies m v p1 p2 d :
  build_model days parks companies = Ok m ->
  satisfies v m ->
  precedes parks p1 p2 ->
  Park.demanding p1 = true -> Park.demanding p2 = true ->
  In d days -> In (d + 1) days ->
  let n1 := Park.name p1 in
  let n2 := Park.name p2 in
  ((v (park_schedule n1 d) == 1 /\ v (park_schedule n2 (d + 1)%Z) == 1) \/
   (v (park_schedule n1 (d + 1)%Z) == 1 /\ v (park_schedule n2 d) == 1) ->
   1 <= v (slack_7 n1 n2 d (d + 1)%Z))%Q.
Proof.
  intros Hb Hsat Hp D1 D2 Hd Hd' n1 n2.
  pose proof (build_model_successors _ _ _ _ Hb) as Hs.
  apply build_model_inv in Hb. subst m.
  assert (Hdp : demanding_pair parks) by (exists p1, p2; auto).
  assert (Hr : In d (removelast days)) by (apply successor_not_last; auto).
  assert (Hin : forall nc, In nc (consecutive n1 n2 d) ->
                           In nc (all_rules days parks companies)).
  { intros nc Hnc. apply in_all_rules. do 5 right. left. apply in_rules_7.
    exists d, p1, p2. auto. }
  intros [[Ha Hb]|[Ha Hb]].
  - assert (H : holds v (not_both n1 n2 d (d + 1) (slack_7 n1 n2 d (d + 1)))).
    { apply (Hsat (Constraint_7 n1 n2 d (d + 1))). apply Hin. simpl. auto. }
    unfold holds, not_both in H. cbn [sense lhs rhs eval] in H.
    rewrite Ha, Hb in H. change (inject_Z 1) with 1%Q in H. lra.
  - assert (H : holds v (not_both n1 n2 (d + 1) d (slack_7 n1 n2 d (d + 1)))).
    { apply (Hsat (Constraint_7 n1 n2 (d + 1) d)). apply Hin. simpl. auto. }
    unfold holds, not_both in H. cbn [sense lhs rhs eval] in H.
    rewrite Ha, Hb in H. change (inject_Z 1) with 1%Q in H. lra.
Qed.

Lemma consecutive_demanding_parks_cost_slack_witness :
  ((Sample6.back_to_back (park_schedule "Universal Studios" 1%Z) == 1 /\
    Sample6.back_to_back (park_schedule "Islands of Adventure" 2%Z) == 1) \/
   (Sample6.back_to_back (park_schedule "Universal Studios" 2%Z) == 1 /\
    Sample6.back_to_back (park_schedule "Islands of Adventure" 1%Z) == 1) ->
   1 <= Sample6.back_to_back
          (slack_7 "Universal Studios" "Islands of Adventure" 1%Z 2%Z))%Q /\
  satisfies Sample6.back_to_back Sample6.two_days.
Proof.
  assert (Hsat : satisfies Sample6.back_to_back Sample6.two_days).
  { intros n c Hin. simpl in Hin.
    repeat (destruct Hin as [Hin|Hin];
            [inversion Hin; subst; vm_compute;
             first [reflexivity | intro X; discriminate X]|]).
    contradiction. }
  split; [|exact Hsat].
  apply (consecutive_demanding_parks_cost_slack
           [1; 2] [Sample3.universal; Sample3.islands] [Sample3.universal_co]
           Sample6.two_days Sample6.back_to_back
           Sample3.universal Sample3.islands 1 eq_refl Hsat).
  - exists [], [], []. reflexivity.
  - reflexivity.
  - reflexivity.
  - simpl. auto.
  - simpl. auto.
Defined.

(** X6.  In an assignment that satisfies the built model, two parks of a
    listed company on days [d1] before [d2] of the trip whose span
    [d2 - d1 + 1] exceeds the company's [number_of_days] force a slack
    variable to be at least 1: [slack_8[p1][p2][d1][d2]] when the earlier
    park of the list is on the earlier day, [slack_8[p1][p2][d2][d1]]
    otherwise. *)
Theorem spread_company_parks_cost_slack
  days parks companies m v c p1 p2 d1 d2 :
  build_model days parks companies = Ok m ->
  satisfies v m ->
  In c companies ->
  precedes parks p1 p2 ->
  Company.company c = Park.company p1 ->
  Company.company c = Park.company p2 ->
  precedes days d1 d2 ->
  d2 - d1 + 1 > Company.number_of_days c ->
  let n1 := Park.name p1 in
  let n2 := Park.name p2 in
  ((v (park_schedule n1 d1) == 1 /\ v (park_schedule n2 d2) == 1 ->
    1 <= v (slack_8 n1 n2 d1 d2)) /\
   (v (park_schedule n1 d2) == 1 /\ v (park_schedule n2 d1) == 1 ->
    1 <= v (slack_8 n1 n2 d2 d1)))%Q.
Proof.
  intros Hb Hsat Hc Hp C1 C2 Hd Hgt n1 n2.
  apply build_model_inv in Hb. subst m.
  assert (Hin : forall nc, In nc (window n1 n2 d1 d2) ->
                           In nc (all_rules days parks companies)).
  { intros nc Hnc. apply in_all_rules. do 6 right. apply in_rules_8.
    exists c, p1, p2, d1, d2. auto 10. }
  split; intros [Ha Hb].
  - assert (H : holds v (not_both n1 n2 d1 d2 (slack_8 n1 n2 d1 d2))).
    { apply (Hsat (Constraint_8 n1 n2 d1 d2)). apply Hin. simpl. auto. }
    unfold holds, not_both in H. cbn [sense lhs rhs eval] in H.
    rewrite Ha, Hb in H. change (inject_Z 1) with 1%Q in H. lra.
  - assert (H : holds v (not_both n1 n2 d2 d1 (slack_8 n1 n2 d2 d1))).
    { apply (Hsat (Constraint_8 n1 n2 d2 d1)). apply Hin. simpl. auto. }
    unfold holds, not_both in H. cbn [sense lhs rhs eval] in H.
    rewrite Ha, Hb in H. change (inject_Z 1) with 1%Q in H. lra.
Qed.


Lemma spread_satisfies : satisfies Sample7.spread Sample7.three_days.
Proof.
  intros n c Hin. simpl in Hin.
  repeat (destruct Hin as [Hin|Hin];
          [inversion Hin; subst; vm_compute;
           first [reflexivity | intro X; discriminate X]|]).
  contradiction.
Qed.

Lemma spread_company_parks_cost_slack_witness :
  ((Sample7.spread (park_schedule "Universal Studios" 1%Z) == 1 /\
    Sample7.spread (park_schedule "Islands of Adventure" 3%Z) == 1 ->
    1 <= Sample7.spread
           (slack_8 "Universal Studios" "Islands of Adventure" 1%Z 3%Z)) /\
   (Sample7.spread (park_schedule "Universal Studios" 3%Z) == 1 /\
    Sample7.spread (park_schedule "Islands of Adventure" 1%Z) == 1 ->
    1 <= Sample7.spread
           (slack_8 "Universal Studios" "Islands of Adventure" 3%Z 1%Z)))%Q.
Proof.
  apply (spread_company_parks_cost_slack
           [1; 2; 3] [Sample3.universal; Sample3.islands]
           [Sample3.universal_co] Sample7.three_days Sample7.spread
           Sample3.universal_co Sample3.universal Sample3.islands 1 3
           eq_refl spread_satisfies).
  - simpl. auto.
  - exists [], [], []. reflexivity.
  - reflexivity.
  - reflexivity.
  - exists [], [2], []. reflexivity.
  - simpl. lia.
Defined.

(** ** What the objective charges *)

Lemma qsum_nonneg {A} (f : A -> Q) (l : list A) :
  (forall a, In a l -> (0 <= f a)%Q) -> (0 <= qsum f l)%Q.
Proof.
  induction l as [|x l IH]; simpl; intros H; [apply Qle_refl|].
  assert (0 <= f x)%Q by (apply H; now left).
  assert (0 <= qsum f l)%Q by (apply IH; auto).
  unfold qsum in *. lra.
Qed.

Lemma qsum_member {A} (f : A -> Q) (l : list A) (a : A) :
  (forall x, In x l -> (0 <= f x)%Q) -> In a l -> (f a <= qsum f l)%Q.
Proof.
  induction l as [|x l IH]; simpl; intros H Ha; [contradiction|].
  assert (H0 : (0 <= f x)%Q) by (apply H; now left).
  assert (H1 : (0 <= qsum f l)%Q) by (apply qsum_nonneg; auto).
  destruct Ha as [->|Ha].
  - unfold qsum in *. lra.
  - assert (f a <= qsum f l)%Q by (apply IH; auto).
    unfold qsum in *. lra.
Qed.

Lemma eval_penalties days parks (v : Assignment) :
  eval v (penalties days parks)
  = (inject_Z 10000 * qsum (fun p => v (slack_6 p)) (park_names parks)
     + inject_Z 10000
       * qsum (fun q => v match q with
                          | (p1, p2, d1, d2) => slack_7 p1 p2 d1 d2
                          end) (all_quadruples days parks)
     + inject_Z 10000
       * qsum (fun q => v match q with
                          | (p1, p2, d1, d2) => slack_8 p1 p2 d1 d2
                          end) (all_quadruples days parks))%Q.
Proof.
  rewrite <- (eval_lpSum_map v slack_6 (park_names parks)).
  rewrite <- (eval_lpSum_map v
    (fun q => match q with (p1, p2, d1, d2) => slack_7 p1 p2 d1 d2 end)
    (all_quadruples days parks)).
  rewrite <- (eval_lpSum_map v
    (fun q => match q with (p1, p2, d1, d2) => slack_8 p1 p2 d1 d2 end)
    (all_quadruples days parks)).
  reflexivity.
Qed.

(** X7.  For an assignment without negative values, the objective of the
    built model is at least 10000 times the value of each slack variable
    summed in it, and it is zero when all of them are zero. *)
Theorem objective_charges_every_slack days parks companies m v :
  build_model days parks companies = Ok m ->
  (forall x, (0 <= v x)%Q) ->
  exists e,
    objective m = Some e /\
    (forall x, In x (objective_vars m) ->
               (inject_Z 10000 * v x <= eval v e)%Q) /\
    ((forall x, In x (objective_vars m) -> (v x == 0)%Q) ->
     (eval v e == 0)%Q).
Proof.
  intros Hb Hpos. apply build_model_inv in Hb. subst m.
  exists (penalties days parks). split; [reflexivity|].
  unfold objective_vars. cbn [objective]. rewrite eval_penalties.
  set (f6 := fun p => v (slack_6 p)).
  set (f7 := fun q : string * string * Day * Day =>
               v match q with (p1, p2, d1, d2) => slack_7 p1 p2 d1 d2 end).
  set (f8 := fun q : string * string * Day * Day =>
               v match q with (p1, p2, d1, d2) => slack_8 p1 p2 d1 d2 end).
  assert (P6 : (0 <= qsum f6 (park_names parks))%Q)
    by (apply qsum_nonneg; intros; apply Hpos).
  assert (P7 : (0 <= qsum f7 (all_quadruples days parks))%Q)
    by (apply qsum_nonneg; intros; apply Hpos).
  assert (P8 : (0 <= qsum f8 (all_quadruples days parks))%Q)
    by (apply qsum_nonneg; intros; apply Hpos).
  change (inject_Z 10000) with 10000%Q. split.
  - intros x Hx. apply in_penalties_vars in Hx.
    destruct Hx as [[p [-> Hin]]|[[a [b [c [d [-> Hin]]]]]|[a [b [c [d [-> Hin]]]]]]].
    + assert (H : (f6 p <= qsum f6 (park_names parks))%Q)
        by (apply qsum_member; [intros; apply Hpos|assumption]).
      unfold f6 in H at 1. lra.
    + assert (H : (f7 (a, b, c, d) <= qsum f7 (all_quadruples days parks))%Q)
        by (apply qsum_member; [intros; apply Hpos|assumption]).
      unfold f7 in H at 1. lra.
    + assert (H : (f8 (a, b, c, d) <= qsum f8 (all_quadruples days parks))%Q)
        by (apply qsum_member; [intros; apply Hpos|assumption]).
      unfold f8 in H at 1. lra.
  - intros Hz.
    assert (Z6 : (qsum f6 (park_names parks) == 0)%Q).
    { rewrite (qsum_compat f6 (fun _ => 0%Q)); [apply qsum_zero|].
      intros p Hp. apply Hz. apply in_penalties_vars. left. eauto. }
    assert (Z7 : (qsum f7 (all_quadruples days parks) == 0)%Q).
    { rewrite (qsum_compat f7 (fun _ => 0%Q)); [apply qsum_zero|].
      intros [[[a b] c] d] Hq. apply Hz. apply in_penalties_vars.
      right. left. exists a, b, c, d. auto. }
    assert (Z8 : (qsum f8 (all_quadruples days parks) == 0)%Q).
    { rewrite (qsum_compat f8 (fun _ => 0%Q)); [apply qsum_zero|].
      intros [[[a b] c] d] Hq. apply Hz. apply in_penalties_vars.
      right. right. exists a, b, c, d. auto. }
    rewrite Z6, Z7, Z8. ring.
Qed.

Lemma objective_charges_every_slack_witness :
  exists e,
    objective Sample7.three_days = Some e /\
    (forall x, In x (objective_vars Sample7.three_days) ->
               (inject_Z 10000 * Sample7.spread x <= eval Sample7.spread e)%Q) /\
    ((forall x, In x (objective_vars Sample7.three_days) ->
                (Sample7.spread x == 0)%Q) ->
     (eval Sample7.spread e == 0)%Q).
Proof.
  apply (objective_charges_every_slack
           [1; 2; 3] [Sample3.universal; Sample3.islands]
           [Sample3.universal_co] Sample7.three_days Sample7.spread eq_refl).
  intros x. unfold Sample7.spread.
  destruct x as [p d|p|p1 p2 d1 d2|p1 p2 d1 d2];
    repeat match goal with
           | |- context [if ?c then _ else _] => destruct c
           end; intro X; discriminate X.
Defined.

(** ** The order of the printed schedule *)

Lemma map_fst_row names (b : string -> Day -> bool) x :
  map fst (row names b x) = repeat x (nsum (fun n => ind (b n x)) names).
Proof.
  unfold row. induction names as [|a l IH]; [reflexivity|].
  cbn [flat_map nsum fold_right]. rewrite map_app, IH.
  destruct (b a x); reflexivity.
Qed.

Lemma existsb_nsum names (b : string -> Day -> bool) x :
  existsb (fun n => b n x) names
  = negb (Nat.eqb (nsum (fun n => ind (b n x)) names) 0).
Proof.
  induction names as [|a l IH]; [reflexivity|].
  cbn [existsb nsum fold_right]. rewrite IH.
  destruct (b a x); reflexivity.
Qed.

Lemma rows_filter names (b : string -> Day -> bool) days :
  (forall d, In d days -> (nsum (fun n => ind (b n d)) names <= 1)%nat) ->
  map fst (flat_map (row names b) days)
  = filter (fun d => existsb (fun n => b n d) names) days.
Proof.
  induction days as [|x l IH]; intros H; [reflexivity|].
  cbn [flat_map filter]. rewrite map_app, map_fst_row, existsb_nsum.
  rewrite IH by (intros; apply H; now right).
  specialize (H x (or_introl eq_refl)).
  destruct (nsum (fun n => ind (b n x)) names) as [|[|k]]; simpl;
    [reflexivity|reflexivity|lia].
Qed.

Lemma sorted_filter (f : Z -> bool) (l : list Z) :
  StronglySorted Z.lt l -> StronglySorted Z.lt (filter f l).
Proof.
  induction 1 as [|a l Hs IH Hf]; simpl; [constructor|].
  destruct (f a); [|assumption]. constructor; [assumption|].
  rewrite Forall_forall in *. intros x Hx. apply filter_In in Hx.
  apply Hf. tauto.
Qed.

(** X8.  The visits printed from a 0/1 assignment that satisfies the hard
    constraints follow the list [days]: their days are the days of the list
    that host a park, in the order of the list, so in calendar order when
    the list is increasing. *)
Theorem printed_days_follow_the_list days parks companies m v sol :
  build_model days parks companies = Ok m ->
  binary v ->
  satisfies_hard v m ->
  (forall p d,
     varValue sol (park_schedule p d) = Some (v (park_schedule p d))) ->
  status_code (status sol) >= 0 ->
  exists out,
    print_solution days parks m sol = Ok out /\
    map fst (visits out)
    = filter (fun d => existsb (fun n => assigned v n d) (park_names parks))
             days /\
    (StronglySorted Z.lt days -> StronglySorted Z.lt (map fst (visits out))).
Proof.
  intros Hb Hbin Hsat Hval Hst. apply build_model_inv in Hb. subst m.
  destruct (counted_rules _ _ _ _ Hbin Hsat) as [R1n _].
  destruct (printed_visits days parks
              (mkProblem (Some (penalties days parks))
                         (all_rules days parks companies)) sol)
    as [out [Hout Hvis]].
  exists out. split; [assumption|].
  assert (Hge : (status_code (status sol) >=? 0) = true)
    by (apply Z.geb_le; lia).
  rewrite Hge in Hvis. rewrite Hvis, (schedule_rows days parks v _ Hval).
  rewrite (rows_filter _ _ _ R1n). split; [reflexivity|].
  apply sorted_filter.
Qed.

Lemma printed_days_follow_the_list_witness :
  exists out,
    print_solution [1; 2; 3] [Sample3.universal; Sample3.islands]
      Sample7.three_days Sample7.spread_solved = Ok out /\
    map fst (visits out)
    = filter (fun d => existsb (fun n => assigned Sample7.spread n d)
                         (park_names [Sample3.universal; Sample3.islands]))
             [1; 2; 3] /\
    (StronglySorted Z.lt [1; 2; 3] ->
     StronglySorted Z.lt (map fst (visits out))).
Proof.
  apply (printed_days_follow_the_list
           [1; 2; 3] [Sample3.universal; Sample3.islands]
           [Sample3.universal_co] Sample7.three_days Sample7.spread
           Sample7.spread_solved eq_refl).
  - intros p d. unfold Sample7.spread.
    destruct ((String.eqb p "Universal Studios" && (d =? 1))
              || (String.eqb p "Islands of Adventure" && (d =? 3)))%bool;
      [right|left]; reflexivity.
  - intros n c Hin _. now apply spread_satisfies in Hin.
  - intros p d. reflexivity.
  - simpl. lia.
Defined.

(** ** Names and days that occur twice *)

Lemma add_constraint_raise_inv s n c e :
  add_constraint s n c = Raise e ->
  e = PulpError (pulp_name n) /\ In (pulp_name n) (held s).
Proof.
  unfold add_constraint.
  destruct (existsb (String.eqb (pulp_name n)) (held s)) eqn:E;
    intros H; inversion H; subst. split; [reflexivity|].
  apply existsb_exists in E. destruct E as [x [Hx E]].
  apply String.eqb_eq in E. now subst.
Qed.


Lemma names_of_rules_1 days parks :
  map (fun nc => pulp_name (fst nc)) (rules_1 days parks)
  = map (fun d => pulp_name (Constraint_1 d)) days.
Proof. unfold rules_1. induction days; simpl; congruence. Qed.





(** X14.  A day that occurs twice in [days] makes the builder raise
    [PulpError] at block 1, for the name of the constraint of a day of the
    list, whatever the parks and companies. *)
Theorem repeated_day_raises_PulpError days parks companies :
  ~ NoDup days ->
  exists d, In d days /\
            build_model days parks companies
            = Raise (PulpError (pulp_name (Constraint_1 d))).
Proof.
  intros Hdup. unfold build_model. rewrite the_objective_ok. simpl.
  set (s0 := set_objective LpProblem_new (penalties days parks)).
  destruct (constraint_1 days parks s0) as [s1|e] eqn:E; simpl.
  - exfalso. apply Hdup.
    assert (Hnd : NoDup (held s1)).
    { revert E. intros E.
      apply (for_each_invariant (fun z => NoDup (held z)) _ _) with (s := s0)
        in E; [exact E| |constructor].
      intros d s s' _ Hbody. bind_inv Hbody.
      eapply add_constraint_keeps_names_apart; eauto. }
    apply constraint_1_inv in E. subst s1.
    rewrite held_add_constraints in Hnd. simpl in Hnd.
    rewrite names_of_rules_1 in Hnd. now apply NoDup_map_inv in Hnd.
  - revert E.
    apply (for_each_raise_inv _ _
             (fun e => exists d, In d days /\
                Raise e = Raise (A := LpProblem)
                            (PulpError (pulp_name (Constraint_1 d))))).
    intros d s e1 Hd Hbody.
    rewrite (mapM_ok _ (fun p => park_schedule p d)) in Hbody
      by (intros p Hp; now apply variables_at_in).
    simpl in Hbody. apply add_constraint_raise_inv in Hbody.
    destruct Hbody as [-> _]. eauto.
Qed.

Lemma repeated_day_raises_PulpError_witness :
  exists d, In d [1; 2; 2] /\
            build_model [1; 2; 2] [Sample.aquatica] [Sample.sea_world]
            = Raise (PulpError (pulp_name (Constraint_1 d))).
Proof.
  apply (repeated_day_raises_PulpError [1; 2; 2] [Sample.aquatica]
           [Sample.sea_world]).
  intros H. inversion H as [|? ? _ H1]; subst.
  inversion H1 as [|? ? H2 _]; subst. apply H2. simpl. auto.
Defined.

(** ** Parks of a company that is not listed *)

(** X10.  With parks known by unique names, a park whose company is not
    among [companies] occurs in no constraint of rule 8 of the built model,
    neither as the first nor as the second park of the name. *)
Theorem unlisted_company_is_unconstrained days parks companies m p :
  build_model days parks companies = Ok m ->
  NoDup (park_names parks) ->
  In p parks ->
  (forall c, In c companies -> Company.company c <> Park.company p) ->
  forall n k q d d',
    In (n, k) (constraints m) ->
    n <> Constraint_8 (Park.name p) q d d' /\
    n <> Constraint_8 q (Park.name p) d d'.
Proof.
  intros Hb Hnd Hp Hc n k q d d' Hin.
  apply build_model_inv in Hb. subst m. cbn [constraints] in Hin.
  assert (H8 : is_rule_8 n = true ->
    exists c p1 p2 e1 e2, In c companies /\ In p1 parks /\ In p2 parks /\
      Company.company c = Park.company p1 /\
      Company.company c = Park.company p2 /\
      (n = Constraint_8 (Park.name p1) (Park.name p2) e1 e2 \/
       n = Constraint_8 (Park.name p1) (Park.name p2) e2 e1)).
  { intros Hn. apply rule_8_origin in Hin; [|now left].
    apply in_rules_8 in Hin.
    destruct Hin as [c [p1 [p2 [e1 [e2 [Hc' [Hpr [K1 [K2 [_ [_ Hw]]]]]]]]]]].
    destruct (precedes_in _ _ _ Hpr) as [Hp1 Hp2].
    exists c, p1, p2, e1, e2. repeat split; auto.
    apply in_window in Hw. destruct Hw as [Hw|Hw]; inversion Hw; auto. }
  split; intros ->;
    destruct (H8 eq_refl)
      as [c [p1 [p2 [e1 [e2 [Hc' [Hp1 [Hp2 [K1 [K2 Hn]]]]]]]]]].
  - assert (p1 = p).
    { apply (NoDup_map_inj Park.name parks); auto.
      destruct Hn as [Hn|Hn]; inversion Hn; auto. }
    subst p1. now apply (Hc c).
  - assert (p2 = p).
    { apply (NoDup_map_inj Park.name parks); auto.
      destruct Hn as [Hn|Hn]; inversion Hn; auto. }
    subst p2. now apply (Hc c).
Qed.

Lemma unlisted_company_is_unconstrained_witness :
  NoDup (park_names [Sample3.universal; Sample3.islands]) /\
  forall n k q d d',
    In (n, k) (constraints Sample7.unlisted) ->
    n <> Constraint_8 "Universal Studios" q d d' /\
    n <> Constraint_8 q "Universal Studios" d d'.
Proof.
  assert (Hnd : NoDup (park_names [Sample3.universal; Sample3.islands])).
  { repeat constructor; simpl; intuition discriminate. }
  split; [exact Hnd|].
  apply (unlisted_company_is_unconstrained
           [1; 2; 3] [Sample3.universal; Sample3.islands] [Sample.disney]
           Sample7.unlisted Sample3.universal eq_refl Hnd).
  - simpl. auto.
  - intros c [<-|[]]. discriminate.
Defined.

(** ** The days of the trip *)

Lemma trip_days_ok first_day last_day :
  valid_date first_day -> valid_date last_day ->
  trip_days first_day last_day
  = Ok (map (fun x => first_day + Z.of_nat x)
            (seq 0 (Z.to_nat (last_day - first_day + 1)))).
Proof.
  intros [H1 H2] [H3 H4]. unfold trip_days. apply mapM_ok.
  intros x Hx. apply in_seq in Hx. apply date_add_ok.
  unfold valid_date. lia.
Qed.

Lemma in_trip first_day n d :
  In d (map (fun x => first_day + Z.of_nat x) (seq 0 n)) <->
  first_day <= d < first_day + Z.of_nat n.
Proof.
  rewrite in_map_iff. split.
  - intros [x [<- Hx]]. apply in_seq in Hx. lia.
  - intros H. exists (Z.to_nat (d - first_day)). split; [lia|].
    apply in_seq. lia.
Qed.

Lemma trip_sorted first_day k n :
  StronglySorted Z.lt (map (fun x => first_day + Z.of_nat x) (seq k n)).
Proof.
  revert k. induction n as [|n IH]; intros k; simpl; constructor.
  - apply IH.
  - rewrite Forall_forall. intros d Hd. apply in_map_iff in Hd.
    destruct Hd as [x [<- Hx]]. apply in_seq in Hx. lia.
Qed.

(** X11.  For two calendar dates, the list of days built at lines 105 to
    107 holds exactly the dates from [first_day] to [last_day], in strictly
    increasing order, each but the last followed by its successor; it is
    empty when [last_day] precedes [first_day]. *)
Theorem trip_days_are_contiguous first_day last_day :
  valid_date first_day -> valid_date last_day ->
  exists days,
    trip_days first_day last_day = Ok days /\
    (forall d, In d days <-> first_day <= d <= last_day) /\
    StronglySorted Z.lt days /\
    Forall valid_date days /\
    successors_known days /\
    List.length days = Z.to_nat (last_day - first_day + 1).
Proof.
  intros Hf Hl. eexists. split; [now apply trip_days_ok|].
  assert (Hin : forall d,
    In d (map (fun x => first_day + Z.of_nat x)
              (seq 0 (Z.to_nat (last_day - first_day + 1))))
    <-> first_day <= d <= last_day).
  { intros d. rewrite in_trip. lia. }
  assert (Hs : StronglySorted Z.lt
    (map (fun x => first_day + Z.of_nat x)
         (seq 0 (Z.to_nat (last_day - first_day + 1)))))
    by apply trip_sorted.
  split; [exact Hin|]. split; [exact Hs|]. split; [|split].
  - rewrite Forall_forall. intros d Hd. apply Hin in Hd.
    unfold valid_date in *. lia.
  - intros d Hd.
    destruct (sorted_removelast_lt _ _ Hs Hd) as [x [Hx Hlt]].
    apply in_removelast in Hd. apply Hin in Hd. apply Hin in Hx.
    apply Hin. lia.
  - now rewrite length_map, length_seq.
Qed.

Lemma trip_days_are_contiguous_witness :
  exists days,
    trip_days 738414 738426 = Ok days /\
    (forall d, In d days <-> 738414 <= d <= 738426) /\
    StronglySorted Z.lt days /\
    Forall valid_date days /\
    successors_known days /\
    List.length days = Z.to_nat (738426 - 738414 + 1).
Proof.
  apply (trip_days_are_contiguous 738414 738426);
    unfold valid_date, MAXORDINAL; lia.
Defined.

(** X12.  With the days built from two calendar dates, the builder returns
    a model as soon as every day that a park lists lies between
    [first_day] and [last_day] and PuLP keeps the names of the constraints
    apart: on such a list block 7 finds every successor it looks up. *)
Theorem trip_days_then_build_model first_day last_day parks companies :
  valid_date first_day -> valid_date last_day ->
  (forall p d, In p parks -> listed p d -> first_day <= d <= last_day) ->
  (forall days, trip_days first_day last_day = Ok days ->
                names_distinct days parks companies) ->
  exists days m,
    trip_days first_day last_day = Ok days /\
    build_model days parks companies = Ok m.
Proof.
  intros Hf Hl Hk Hnd.
  pose proof (trip_days_ok first_day last_day Hf Hl) as Ht.
  set (days := map (fun x => first_day + Z.of_nat x)
                   (seq 0 (Z.to_nat (last_day - first_day + 1)))) in *.
  assert (Hin : forall d, In d days <-> first_day <= d <= last_day).
  { intros d. unfold days. rewrite in_trip. lia. }
  assert (Hs : StronglySorted Z.lt days) by apply trip_sorted.
  exists days. eexists. split; [exact Ht|].
  apply build_model_ok; auto.
  - rewrite Forall_forall. intros d Hd. apply Hin in Hd.
    unfold valid_date in *. lia.
  - intros p Hp. repeat split; intros d Hd; apply Hin; apply (Hk p d Hp);
      unfold listed; auto.
  - intros _ d Hd.
    destruct (sorted_removelast_lt _ _ Hs Hd) as [x [Hx Hlt]].
    apply in_removelast in Hd. apply Hin in Hd. apply Hin in Hx.
    apply Hin. lia.
Qed.

Lemma trip_days_then_build_model_witness :
  exists days m,
    trip_days 1 4 = Ok days /\
    build_model days [Sample.epcot; Sample.kingdom] [Sample.disney] = Ok m.
Proof.
  apply (trip_days_then_build_model 1 4 [Sample.epcot; Sample.kingdom]
           [Sample.disney]).
  - unfold valid_date, MAXORDINAL. lia.
  - unfold valid_date, MAXORDINAL. lia.
  - intros p d [<-|[<-|[]]]; unfold listed; simpl;
      intros [H|[H|[H|H]]];
      repeat match goal with
             | H : _ \/ _ |- _ => destruct H
             | H : False |- _ => destruct H
             | H : None = Some _ |- _ => discriminate H
             end; subst; lia.
  - intros days H. vm_compute in H. inversion H; subst.
    apply names_distinct_check. vm_compute. reflexivity.
Defined.

(** ** The soft rules never make the model infeasible *)

Lemma relaxed_sum_names (v : Assignment) (d : Day) (l : list string) :
  eval (relaxed v) (lpSum (map (fun p => park_schedule p d) l))
  = eval v (lpSum (map (fun p => park_schedule p d) l)).
Proof. induction l as [|a l IH]; simpl in *; congruence. Qed.

Lemma relaxed_sum_days (v : Assignment) (p : string) (l : list Day) :
  eval (relaxed v) (lpSum (map (fun d => park_schedule p d) l))
  = eval v (lpSum (map (fun d => park_schedule p d) l)).
Proof. induction l as [|a l IH]; simpl in *; congruence. Qed.

(** X13.  An assignment of values between 0 and 1 to the park variables
    that satisfies the hard constraints of the built model satisfies all
    of its constraints once every slack variable is set to 1: the
    constraints of rules 7 and 8 can always be met by paying. *)
Theorem soft_rules_can_always_be_paid days parks companies m v :
  build_model days parks companies = Ok m ->
  (forall p d, (0 <= v (park_schedule p d) <= 1)%Q) ->
  satisfies_hard v m ->
  satisfies (relaxed v) m.
Proof.
  intros Hb Hx Hsat. apply build_model_inv in Hb. subst m.
  intros n c Hin. cbn [constraints] in Hin.
  pose proof Hin as Hin'. apply in_all_rules in Hin'.
  destruct Hin' as [H|[H|[H|[H|[H|[H|H]]]]]].
  - apply in_rules_1 in H. destruct H as [d [_ H]]. inversion H; subst.
    pose proof (Hsat _ _ Hin eq_refl) as Hh.
    unfold holds in *. cbn [sense lhs rhs] in *.
    rewrite relaxed_sum_names. exact Hh.
  - apply in_rules_2 in H. destruct H as [p [_ H]]. inversion H; subst.
    pose proof (Hsat _ _ Hin eq_refl) as Hh.
    unfold holds in *. cbn [sense lhs rhs] in *.
    rewrite relaxed_sum_days. exact Hh.
  - apply in_rules_3 in H. destruct H as [p [d [_ [_ H]]]]. inversion H; subst.
    exact (Hsat _ _ Hin eq_refl).
  - apply in_rules_4 in H. destruct H as [p [d [_ [_ H]]]]. inversion H; subst.
    exact (Hsat _ _ Hin eq_refl).
  - apply in_rules_5 in H. destruct H as [p [d [_ [_ H]]]]. inversion H; subst.
    exact (Hsat _ _ Hin eq_refl).
  - apply in_rules_7 in H. destruct H as [d1 [p1 [p2 [_ [_ [_ [_ H]]]]]]].
    apply in_consecutive in H.
    destruct H as [H|H]; inversion H; subst;
      unfold holds, not_both; cbn [sense lhs rhs eval relaxed];
      change (inject_Z 1) with 1%Q;
      match goal with
      | |- (v (park_schedule ?a ?x) + v (park_schedule ?b ?y) <= _)%Q =>
          pose proof (Hx a x); pose proof (Hx b y); lra
      end.
  - apply in_rules_8 in H.
    destruct H as [c0 [p1 [p2 [d1 [d2 [_ [_ [_ [_ [_ [_ H]]]]]]]]]]].
    apply in_window in H.
    destruct H as [H|H]; inversion H; subst;
      unfold holds, not_both; cbn [sense lhs rhs eval relaxed];
      change (inject_Z 1) with 1%Q;
      match goal with
      | |- (v (park_schedule ?a ?x) + v (park_schedule ?b ?y) <= _)%Q =>
          pose proof (Hx a x); pose proof (Hx b y); lra
      end.
Qed.

Lemma soft_rules_can_always_be_paid_witness :
  satisfies_hard Sample7.spread Sample7.three_days /\
  satisfies (relaxed Sample7.spread) Sample7.three_days.
Proof.
  assert (Hh : satisfies_hard Sample7.spread Sample7.three_days).
  { intros n c Hin _. now apply spread_satisfies in Hin. }
  split; [exact Hh|].
  apply (soft_rules_can_always_be_paid
           [1; 2; 3] [Sample3.universal; Sample3.islands]
           [Sample3.universal_co] Sample7.three_days Sample7.spread eq_refl);
    [|exact Hh].
  intros p d. unfold Sample7.spread.
  destruct ((String.eqb p "Universal Studios" && (d =? 1))
            || (String.eqb p "Islands of Adventure" && (d =? 3)))%bool;
    split; intro X; discriminate X.
Defined.
